(** * Kana to romaji transliteration: a model of [kana_romaji.py]

    The development embeds the transliteration engine of the add-on
    (normalisation, the two lookup tables, the look-ahead helper, the
    scanning loop and the macron pass) and proves the properties its
    specification states about it.

    - A Python [str] is a sequence of Unicode code points: [list Z].
      A character is a string of length one; where the code handles a
      single character ([ch], [first], [c]) the model uses the code point.
    - The two dictionaries are finite maps keyed by strings.
    - Every operation of the code that can raise (indexing a string or a
      list, [chr]) returns an [option]; [None] stands for the exception.
    - The [while] loop is a step function on the pair (cursor, buffer),
      iterated under a fuel bound that is shown to be sufficient. *)

From Stdlib Require Import ZArith String Ascii.
From stdpp Require Import base option list gmap.

Local Open Scope Z_scope.

(** ** Strings and source literals *)

Abbreviation str := (list Z).

(** The source file is UTF-8; a literal of the source denotes the code
    points its bytes decode to.  [lit] reads a literal of this file in the
    same way, so that the tables below can be compared with the source
    character by character. *)
Module Literal.

Definition bytes_of (s : string) : list Z :=
  List.map (fun a => Z.of_N (N_of_ascii a)) (list_ascii_of_string s).

Fixpoint utf8_decode (fuel : nat) (bs : list Z) : str :=
  match fuel with
  | O => []
  | S f =>
    match bs with
    | [] => []
    | b0 :: r0 =>
      if b0 <? 0x80 then b0 :: utf8_decode f r0
      else match r0 with
        | [] => []
        | b1 :: r1 =>
          if b0 <? 0xE0
          then (Z.land b0 0x1F * 0x40 + Z.land b1 0x3F) :: utf8_decode f r1
          else match r1 with
            | [] => []
            | b2 :: r2 =>
              if b0 <? 0xF0
              then (Z.land b0 0x0F * 0x1000 + Z.land b1 0x3F * 0x40
                    + Z.land b2 0x3F) :: utf8_decode f r2
              else match r2 with
                | [] => []
                | b3 :: r3 =>
                  (Z.land b0 0x07 * 0x40000 + Z.land b1 0x3F * 0x1000
                   + Z.land b2 0x3F * 0x40 + Z.land b3 0x3F)
                    :: utf8_decode f r3
                end
            end
        end
    end
  end.

Definition lit (s : string) : str :=
  let bs := bytes_of s in utf8_decode (List.length bs) bs.

End Literal.

Notation "« s »" := (Literal.lit s%string) (at level 0, s at level 0, only parsing).

(** The characters the scanning loop names. *)
Definition SOKUON : Z := 0x3063.  (* っ *)
Definition MORAIC_N : Z := 0x3093.  (* ん *)
Definition CHOUON : Z := 0x30FC.  (* ー *)

(** ** Python primitives used by the engine *)
Module Py.

(** [ord] of a one-character string is its code point; [chr] raises
    [ValueError] outside [range(0x110000)]. *)
Definition ord (ch : Z) : Z := ch.

Definition chr (code : Z) : option Z :=
  if bool_decide (0 <= code < 0x110000) then Some code else None.

(** [c.isalpha()] and [c.lower()] on the ASCII range.  The engine calls
    them only on the first letter of a table value, and those letters are
    lower-case ASCII ([chunk_alphabet] below), where this is what Python
    computes. *)
Definition isalpha (c : Z) : bool :=
  bool_decide (0x41 <= c <= 0x5A) || bool_decide (0x61 <= c <= 0x7A).

Definition lower (c : Z) : Z :=
  if bool_decide (0x41 <= c <= 0x5A) then c + 0x20 else c.

(** [c in s] for a one-character [c]. *)
Definition char_in (c : Z) (s : str) : bool := bool_decide (c ∈ s).

Fixpoint startswith (s old : str) : bool :=
  match old, s with
  | [], _ => true
  | _ :: _, [] => false
  | o :: old', c :: s' => bool_decide (c = o) && startswith s' old'
  end.

(** [s.replace(old, new)] for a non-empty [old]: the occurrences of [old]
    are found from the left and do not overlap.  [skip] counts the
    characters of a match that remain to be passed over. *)
Fixpoint replace_from (old new : str) (skip : nat) (s : str) : str :=
  match s with
  | [] => []
  | c :: s' =>
    match skip with
    | S k => replace_from old new k s'
    | O =>
      if startswith s old
      then new ++ replace_from old new (List.length old - 1) s'
      else c :: replace_from old new 0 s'
    end
  end.

Definition replace (s old new : str) : str := replace_from old new 0 s.

End Py.

(** ** [_kata_to_hira] *)

Definition _kata_to_hira (ch : Z) : option Z :=
  let code := Py.ord ch in
  if bool_decide (0x30A1 <= code <= 0x30F6) then Py.chr (code - 0x60)
  else Some ch.

(** Normalize to hiragana: [_kata_to_hira] over every character of the
    text, joined. *)
Definition normalize (text : str) : option str := mapM _kata_to_hira text.

(** The code-point range [_kata_to_hira] shifts, and the hiragana block. *)
Definition is_katakana (c : Z) : Prop := 0x30A1 <= c <= 0x30F6.
Definition is_hiragana (c : Z) : Prop := 0x3041 <= c <= 0x309F.

#[global] Instance is_katakana_dec c : Decision (is_katakana c).
Proof. unfold is_katakana. apply _. Defined.
#[global] Instance is_hiragana_dec c : Decision (is_hiragana c).
Proof. unfold is_hiragana. apply _. Defined.

(** ** The tables *)

(** Digraphs (きゃ, しゃ, etc.), Hepburn-style *)
Definition _HIRA_DIGRAPHS_items : list (str * str) := Eval vm_compute in [
  (* k *)
  («"きゃ"», «"kya"»); («"きゅ"», «"kyu"»); («"きょ"», «"kyo"»);
  (* g *)
  («"ぎゃ"», «"gya"»); («"ぎゅ"», «"gyu"»); («"ぎょ"», «"gyo"»);
  (* s / sh *)
  («"しゃ"», «"sha"»); («"しゅ"», «"shu"»); («"しょ"», «"sho"»);
  («"じゃ"», «"ja"»);  («"じゅ"», «"ju"»);  («"じょ"», «"jo"»);
  (* ch / j *)
  («"ちゃ"», «"cha"»); («"ちゅ"», «"chu"»); («"ちょ"», «"cho"»);
  (* n *)
  («"にゃ"», «"nya"»); («"にゅ"», «"nyu"»); («"にょ"», «"nyo"»);
  (* h *)
  («"ひゃ"», «"hya"»); («"ひゅ"», «"hyu"»); («"ひょ"», «"hyo"»);
  (* b *)
  («"びゃ"», «"bya"»); («"びゅ"», «"byu"»); («"びょ"», «"byo"»);
  (* p *)
  («"ぴゃ"», «"pya"»); («"ぴゅ"», «"pyu"»); («"ぴょ"», «"pyo"»);
  (* m *)
  («"みゃ"», «"mya"»); («"みゅ"», «"myu"»); («"みょ"», «"myo"»);
  (* r *)
  («"りゃ"», «"rya"»); («"りゅ"», «"ryu"»); («"りょ"», «"ryo"»)
].

Definition _HIRA_DIGRAPHS : gmap str str := list_to_map _HIRA_DIGRAPHS_items.

(** Single kana → romaji *)
Definition _HIRA_MONO_items : list (str * str) := Eval vm_compute in [
  («"あ"», «"a"»);   («"い"», «"i"»);   («"う"», «"u"»);   («"え"», «"e"»);   («"お"», «"o"»);
  («"か"», «"ka"»);  («"き"», «"ki"»);  («"く"», «"ku"»);  («"け"», «"ke"»);  («"こ"», «"ko"»);
  («"さ"», «"sa"»);  («"し"», «"shi"»); («"す"», «"su"»);  («"せ"», «"se"»);  («"そ"», «"so"»);
  («"た"», «"ta"»);  («"ち"», «"chi"»); («"つ"», «"tsu"»); («"て"», «"te"»);  («"と"», «"to"»);
  («"な"», «"na"»);  («"に"», «"ni"»);  («"ぬ"», «"nu"»);  («"ね"», «"ne"»);  («"の"», «"no"»);
  («"は"», «"ha"»);  («"ひ"», «"hi"»);  («"ふ"», «"fu"»);  («"へ"», «"he"»);  («"ほ"», «"ho"»);
  («"ま"», «"ma"»);  («"み"», «"mi"»);  («"む"», «"mu"»);  («"め"», «"me"»);  («"も"», «"mo"»);
  («"や"», «"ya"»);                     («"ゆ"», «"yu"»);                     («"よ"», «"yo"»);
  («"ら"», «"ra"»);  («"り"», «"ri"»);  («"る"», «"ru"»);  («"れ"», «"re"»);  («"ろ"», «"ro"»);
  («"わ"», «"wa"»);                                                           («"を"», «"o"»);
  («"ん"», «"n"»);
  (* dakuten *)
  («"が"», «"ga"»);  («"ぎ"», «"gi"»);  («"ぐ"», «"gu"»);  («"げ"», «"ge"»);  («"ご"», «"go"»);
  («"ざ"», «"za"»);  («"じ"», «"ji"»);  («"ず"», «"zu"»);  («"ぜ"», «"ze"»);  («"ぞ"», «"zo"»);
  («"だ"», «"da"»);  («"ぢ"», «"ji"»);  («"づ"», «"zu"»);  («"で"», «"de"»);  («"ど"», «"do"»);
  («"ば"», «"ba"»);  («"び"», «"bi"»);  («"ぶ"», «"bu"»);  («"べ"», «"be"»);  («"ぼ"», «"bo"»);
  («"ぱ"», «"pa"»);  («"ぴ"», «"pi"»);  («"ぷ"», «"pu"»);  («"ぺ"», «"pe"»);  («"ぽ"», «"po"»);
  (* small vowels *)
  («"ぁ"», «"a"»); («"ぃ"», «"i"»); («"ぅ"», «"u"»); («"ぇ"», «"e"»); («"ぉ"», «"o"»);
  (* small ya/yu/yo *)
  («"ゃ"», «"ya"»); («"ゅ"», «"yu"»); («"ょ"», «"yo"»);
  (* small tsu handled specially (sokuon) *)
  («"っ"», []);
  (* chōon (ー) handled separately *)
  («"ー"», [])
].

Definition _HIRA_MONO : gmap str str := list_to_map _HIRA_MONO_items.

(** ** [_next_romaji_chunk]: peek romaji for the kana at [pos] *)

Definition _next_romaji_chunk (hira : str) (pos : nat) : option str :=
  if bool_decide (List.length hira <= pos)%nat then Some []
  else
    ch ← hira !! pos;
    in_digraphs ←
      (if bool_decide (pos + 1 < List.length hira)%nat
       then ch2 ← hira !! (pos + 1)%nat; Some (_HIRA_DIGRAPHS !! [ch; ch2])
       else Some None);
    match in_digraphs with
    | Some rom => Some rom
    | None => Some (default [] (_HIRA_MONO !! [ch]))
    end.

(** ** [_apply_macrons] *)

Definition repl : list (str * str) := Eval vm_compute in [
  («"aa"», «"ā"»);
  («"ii"», «"ī"»);
  («"uu"», «"ū"»);
  («"ee"», «"ē"»);
  («"oo"», «"ō"»);
  («"ou"», «"ō"»)
].

Definition _apply_macrons (basic : str) : str :=
  fold_left (fun s '(src, dst) => Py.replace s src dst) repl basic.

(** ** The scanning loop of [kana_to_romaji] *)

(** The loop state: the cursor [i] and the list [result] of chunks. *)
Record state := State { st_i : nat; st_result : list str }.

(** [for idx in range(n - 1, -1, -1)]: the chunks the chōon branch appends
    when it scans [last] backward from index [n - 1]. *)
Fixpoint chouon_scan (last : str) (n : nat) : option (list str) :=
  match n with
  | O => Some []
  | S idx =>
    c ← last !! idx;
    if Py.char_in c «"aeiou"» then Some [[c]] else chouon_scan last idx
  end.

(** One iteration of the loop body, entered with [i < length]. *)
Definition step (use_m_before_bmp : bool) (hira : str) (st : state)
  : option state :=
  let i := st_i st in
  let result := st_result st in
  let length := List.length hira in
  ch ← hira !! i;
  (* --- sokuon (small tsu: っ) --- *)
  if bool_decide (ch = SOKUON) then
    appended ←
      (if bool_decide (i + 1 < length)%nat then
         next_chunk ← _next_romaji_chunk hira (i + 1);
         match next_chunk with
         | [] => Some []
         | c :: _ => if Py.isalpha c then Some [[c]] else Some []
         end
       else Some []);
    Some (State (i + 1) (result ++ appended))
  (* --- ん (moraic n) --- *)
  else if bool_decide (ch = MORAIC_N) then
    if bool_decide (length <= i + 1)%nat then
      Some (State (i + 1) (result ++ [«"n"»]))
    else
      next_chunk ← _next_romaji_chunk hira (i + 1);
      match next_chunk with
      | [] => Some (State (i + 1) (result ++ [«"n"»]))
      | c0 :: _ =>
        let first := Py.lower c0 in
        if Py.char_in first «"aeiouy"» then
          Some (State (i + 1) (result ++ [«"n'"»]))
        else if Py.char_in first «"bmp"» then
          if use_m_before_bmp
          then Some (State (i + 1) (result ++ [«"m"»]))
          else Some (State (i + 1) (result ++ [«"n"»]))
        else
          Some (State (i + 1) (result ++ [«"n"»]))
      end
  else
    (* --- digraphs like きゃ, しゃ, etc. --- *)
    in_digraphs ←
      (if bool_decide (i + 1 < length)%nat
       then ch2 ← hira !! (i + 1)%nat; Some (_HIRA_DIGRAPHS !! [ch; ch2])
       else Some None);
    match in_digraphs with
    | Some rom => Some (State (i + 2) (result ++ [rom]))
    | None =>
      (* --- chōon (ー): prolong last vowel --- *)
      if bool_decide (ch = CHOUON) then
        appended ←
          (match result with
           | [] => Some []
           | _ :: _ => lst ← last result; chouon_scan lst (List.length lst)
           end);
        Some (State (i + 1) (result ++ appended))
      else
        (* --- normal kana --- *)
        let rom := default [ch] (_HIRA_MONO !! [ch]) in
        Some (State (i + 1) (result ++ [rom]))
    end.

(** [while i < length]: at most [fuel] iterations; [None] when an
    iteration raises or when the fuel does not suffice. *)
Fixpoint loop (fuel : nat) (use_m_before_bmp : bool) (hira : str)
    (st : state) : option state :=
  if bool_decide (st_i st < List.length hira)%nat then
    match fuel with
    | O => None
    | S fuel' =>
      st' ← step use_m_before_bmp hira st;
      loop fuel' use_m_before_bmp hira st'
    end
  else Some st.

(** The assembled romanisation before the macron pass: normalisation, the
    loop from cursor 0 with an empty buffer, and the final join. *)
Definition basic_romaji (text : str) (use_m_before_bmp : bool) : option str :=
  hira ← normalize text;
  st ← loop (List.length hira) use_m_before_bmp hira (State 0 []);
  Some (concat (st_result st)).

Definition kana_to_romaji (text : str) (use_macrons use_m_before_bmp : bool)
  : option str :=
  if bool_decide (text = []) then Some []
  else
    basic ← basic_romaji text use_m_before_bmp;
    if use_macrons then Some (_apply_macrons basic) else Some basic.


(** ** Vocabulary of the properties *)

Definition lower_ascii (c : Z) : Prop := 0x61 <= c <= 0x7A.

#[global] Instance lower_ascii_dec c : Decision (lower_ascii c).
Proof. unfold lower_ascii. apply _. Defined.

(** The vowel letters the chōon branch looks for. *)
Definition is_vowel (c : Z) : Prop := c ∈ «"aeiou"».

(** The small ya/yu/yo, the second halves of the digraphs. *)
Definition small_y (c : Z) : Prop := c ∈ «"ゃゅょ"».

(** What one entry of the digraph table has to satisfy. *)
Definition digraph_item_ok (kv : str * str) : bool :=
  match kv.1 with
  | [a; b] =>
    bool_decide (a ≠ SOKUON ∧ a ≠ MORAIC_N ∧ a ≠ CHOUON ∧ small_y b
                 ∧ is_Some (_HIRA_MONO !! [a]) ∧ is_Some (_HIRA_MONO !! [b])
                 ∧ kv.2 ≠ [] ∧ Forall lower_ascii kv.2)
  | _ => false
  end.

(** The chunk the look-ahead helper resolves at [pos], as a total function
    of the characters at [pos] and [pos + 1]. *)
Definition peek (hira : str) (pos : nat) : str :=
  match hira !! pos with
  | None => []
  | Some ch =>
    match hira !! (pos + 1)%nat with
    | Some ch2 =>
      match _HIRA_DIGRAPHS !! [ch; ch2] with
      | Some rom => rom
      | None => default [] (_HIRA_MONO !! [ch])
      end
    | None => default [] (_HIRA_MONO !! [ch])
    end
  end.

(** The pair at [i], [i + 1] is a key of the digraph table. *)
Definition digraph_at (hira : str) (i : nat) : bool :=
  match hira !! i, hira !! (i + 1)%nat with
  | Some ch, Some ch2 => bool_decide (is_Some (_HIRA_DIGRAPHS !! [ch; ch2]))
  | _, _ => false
  end.

(** One guarded iteration of the loop, and the states the loop passes
    through when it starts from cursor 0 with an empty buffer. *)
Definition iterates (use_m_before_bmp : bool) (hira : str) (st st' : state) : Prop :=
  (st_i st < List.length hira)%nat ∧ step use_m_before_bmp hira st = Some st'.

Definition visits (use_m_before_bmp : bool) (hira : str) (st : state) : Prop :=
  rtc (iterates use_m_before_bmp hira) (State 0 []) st.

(** The chunk the moraic nasal contributes, in the words of the
    specification: [is_last] says that ん is the last character and
    [lookahead] is the chunk resolved at the next position. *)
Definition nasal_chunk (use_m_before_bmp is_last : bool) (lookahead : str) : str :=
  if is_last then «"n"»
  else match lookahead with
    | [] => «"n"»
    | c :: _ =>
      if bool_decide (Py.lower c ∈ «"aeiouy"») then «"n'"»
      else if bool_decide (Py.lower c ∈ «"bmp"») then
        (if use_m_before_bmp then «"m"» else «"n"»)
      else «"n"»
    end.

(** The macron pass in the words of the specification: the six
    replacements, each applied to the outcome of the one before. *)
Definition macron_pass_spec (basic : str) : str :=
  let s1 := Py.replace basic «"aa"» «"ā"» in
  let s2 := Py.replace s1 «"ii"» «"ī"» in
  let s3 := Py.replace s2 «"uu"» «"ū"» in
  let s4 := Py.replace s3 «"ee"» «"ē"» in
  let s5 := Py.replace s4 «"oo"» «"ō"» in
  Py.replace s5 «"ou"» «"ō"».

(** A state seen from a longer string and a longer buffer: the cursor
    moved right by [offset], the chunks [r1] put in front. *)
Definition shifted (offset : nat) (r1 : list str) (st : state) : state :=
  State (offset + st_i st) (r1 ++ st_result st).

(** What transliterating one key of the digraph table alone has to give:
    the table's value under the four settings of the flags, and a value
    that is not the two monograph values put together. *)
Definition digraph_item_alone (kv : str * str) : bool :=
  bool_decide (∀ um ub : bool, kana_to_romaji kv.1 um ub = Some kv.2)
  && match kv.1 with
     | [a; b] =>
       bool_decide (kv.2 ≠ default [] (_HIRA_MONO !! [a]) ++ default [] (_HIRA_MONO !! [b]))
     | _ => false
     end.

(** A character the basic romanisation of [hira] may contain: a lower-case
    letter, the apostrophe, or a character of [hira] itself that the
    monograph table does not have. *)
Definition chunk_char (hira : str) (c : Z) : Prop :=
  lower_ascii c ∨ c = 0x27 ∨ (c ∈ hira ∧ _HIRA_MONO !! [c] = None).

(** The letters the macron pass writes. *)
Definition macron_letters : str := «"āīūēō"».

(** [old] occurs in [s] as a run of consecutive characters. *)
Definition occurs (old s : str) : Prop := ∃ l1 l2, s = l1 ++ old ++ l2.

(** The pair [x], [y] occurs in [s], as a test. *)
Fixpoint has_pair (x y : Z) (s : str) : bool :=
  match s with
  | a :: (b :: _) as t => bool_decide (a = x ∧ b = y) || has_pair x y t
  | _ => false
  end.

(** The shape of an entry of [repl]: two vowel letters replaced by one
    character that is no vowel letter. *)
Definition macron_rule_ok (kv : str * str) : bool :=
  match kv with
  | ([x; y], [z]) => bool_decide (is_vowel x ∧ is_vowel y ∧ ¬ is_vowel z)
  | _ => false
  end.

(** * The dictionary converter and the lookup: [util/XML2SQL.py], [dictionary.py]

    The converter reads JMdict entries from an XML event stream and writes
    rows of the table [entries]; the add-on reads one row back and builds a
    [DictEntry] from it.  Of the two files the model has what is computed
    in Python: the parsed document is an [Element] tree, the SQLite file is
    the sequence of batches handed to [executemany], and the row
    [fetchone] returned is an argument of [lookup]. *)

(** A row of the table [entries]: the tuple [extract_entry] returns and
    [lookup] unpacks.  A TEXT column holds a string or NULL ([None]). *)
Record row := Row {
  r_ent_seq : Z;
  r_expression : option str;
  r_reading : option str;
  r_gloss1 : option str;
  r_gloss2 : option str;
  r_gloss3 : option str;
  r_pos : option str;
  r_common : option Z
}.

(** The truth value of [s] for a string or [None]: neither [None] nor
    the empty string. *)
Definition truthy (s : option str) : bool :=
  match s with
  | Some (_ :: _) => true
  | _ => false
  end.

Module XML2SQL.

(** An [xml.etree.ElementTree.Element]: tag, attributes, the text before
    the first sub-element, the sub-elements in document order. *)
#[local] Unset Elimination Schemes.
Inductive Element : Type :=
  Elem (tag : str) (attrib : gmap str str) (text : option str)
       (children : list Element).
#[local] Set Elimination Schemes.

Definition tag (e : Element) : str := let 'Elem t _ _ _ := e in t.
Definition attrib (e : Element) : gmap str str := let 'Elem _ a _ _ := e in a.
Definition text (e : Element) : option str := let 'Elem _ _ t _ := e in t.
Definition children (e : Element) : list Element := let 'Elem _ _ _ c := e in c.

(** [e.findall("t")]: the sub-elements with tag [t]. *)
Definition findall (t : str) (e : Element) : list Element :=
  filter (λ c, tag c = t) (children e).

(** [e.findall("t1/t2")]: the [t2] sub-elements of the [t1] sub-elements. *)
Definition findall2 (t1 t2 : str) (e : Element) : list Element :=
  List.flat_map (findall t2) (findall t1 e).

(** [e.findall(".//t")]: the elements with tag [t] at any depth below [e],
    in document order. *)
Fixpoint descendants (e : Element) : list Element :=
  match e with
  | Elem _ _ _ cs => List.flat_map (λ c, c :: descendants c) cs
  end.

Definition findall_deep (t : str) (e : Element) : list Element :=
  filter (λ c, tag c = t) (descendants e).

(** [e.findtext("t")]: the text of the first [t] sub-element, the empty
    string when it has no text, [None] when there is none. *)
Definition findtext (t : str) (e : Element) : option str :=
  match findall t e with
  | [] => None
  | c :: _ => Some (default [] (text c))
  end.

(** [sep.join(l)]. *)
Fixpoint join (sep : str) (l : list str) : str :=
  match l with
  | [] => []
  | [s] => s
  | s :: l' => s ++ sep ++ join sep l'
  end.

Definition XML_LANG : str := «"{http://www.w3.org/XML/1998/namespace}lang"».

(** [[x.text for x in xs if x.text]]. *)
Definition texts (xs : list Element) : list str :=
  omap (λ x, if truthy (text x) then text x else None) xs.

(** The inner loop over the glosses of one sense; it stops at the third
    gloss kept. *)
Fixpoint gloss_loop (gs : list Element) (glosses : list str) : list str :=
  match gs with
  | [] => glosses
  | gloss :: gs' =>
    let lang := default «"eng"» (attrib gloss !! XML_LANG) in
    if bool_decide (lang ≠ «"eng"») then gloss_loop gs' glosses
    else if truthy (text gloss) then
      let glosses := glosses ++ [default [] (text gloss)] in
      if bool_decide (List.length glosses = 3%nat) then glosses
      else gloss_loop gs' glosses
    else gloss_loop gs' glosses
  end.

(** The outer loop over the senses; it stops too at the third gloss. *)
Fixpoint sense_loop (senses : list Element) (glosses : list str) : list str :=
  match senses with
  | [] => glosses
  | sense :: senses' =>
    let glosses := gloss_loop (findall «"gloss"» sense) glosses in
    if bool_decide (List.length glosses = 3%nat) then glosses
    else sense_loop senses' glosses
  end.

(** The two loops that collect the part-of-speech codes. *)
Definition pos_inner (pos_codes : list str) (pos : Element) : list str :=
  match text pos with
  | Some t =>
    if truthy (Some t) && bool_decide (t ∉ pos_codes) then pos_codes ++ [t]
    else pos_codes
  | None => pos_codes
  end.

Definition pos_loop (senses : list Element) : list str :=
  fold_left (λ pos_codes sense, fold_left pos_inner (findall «"pos"» sense) pos_codes)
            senses [].

(** [extract_entry]: parse a single entry into a row, or [None].
    [py_int] is Python's [int] on a string, [None] for [ValueError]. *)
Definition extract_entry (py_int : str → option Z) (entry : Element) : option row :=
  let ent_seq_text := findtext «"ent_seq"» entry in
  if negb (truthy ent_seq_text) then None
  else
    match py_int (default [] ent_seq_text) with
    | None => None
    | Some ent_seq =>
      let kebs := texts (findall2 «"k_ele"» «"keb"» entry) in
      let rebs := texts (findall2 «"r_ele"» «"reb"» entry) in
      match rebs with
      | [] => None
      | reb0 :: _ =>
        let expression := match kebs with keb0 :: _ => keb0 | [] => reb0 end in
        let reading := reb0 in
        let glosses := sense_loop (findall «"sense"» entry) [] in
        match glosses with
        | [] => None
        | _ :: _ =>
          match take 3 ((Some <$> glosses) ++ [None; None; None]) with
          | [gloss1; gloss2; gloss3] =>
            let pos_codes := pos_loop (findall «"sense"» entry) in
            let pos_str :=
              match pos_codes with
              | [] => None
              | _ :: _ => Some (join «";"» pos_codes)
              end in
            let is_common :=
              match findall_deep «"ke_pri"» entry, findall_deep «"re_pri"» entry with
              | [], [] => 0
              | _, _ => 1
              end in
            Some (Row ent_seq (Some expression) (Some reading)
                      gloss1 gloss2 gloss3 pos_str (Some is_common))
          | _ => None
          end
        end
      end
    end.





(** The glosses of an entry the converter is to keep, in the words of its
    loops: the texts that are not empty of the glosses in English (the
    language when none is given), sense after sense. *)
Definition english (gloss : Element) : option str :=
  if bool_decide (default «"eng"» (attrib gloss !! XML_LANG) = «"eng"»)
     && truthy (text gloss)
  then text gloss else None.

Definition english_glosses (entry : Element) : list str :=
  List.flat_map (λ sense, omap english (findall «"gloss"» sense))
                (findall «"sense"» entry).


End XML2SQL.

Module Dictionary.

Record DictEntry := {
  ent_seq : Z;
  expression : option str;
  reading : option str;
  glosses : list str;
  pos : option str;
  common : bool
}.

(** [lookup] from the row [fetchone] returned, [None] when the query found
    no row. *)
Definition lookup (fetched : option row) : option DictEntry :=
  match fetched with
  | None => None
  | Some r =>
    let glosses :=
      omap (λ g, if truthy g then g else None) [r_gloss1 r; r_gloss2 r; r_gloss3 r] in
    Some {| ent_seq := r_ent_seq r;
            expression := r_expression r;
            reading := r_reading r;
            glosses := glosses;
            pos := r_pos r;
            common := match r_common r with
                      | Some n => negb (bool_decide (n = 0))
                      | None => false
                      end |}
  end.

End Dictionary.

(** * The caller: the role "Romaji" in [_on_submit_clicked] *)
Module Addon.

(** [a or b] for two values that are a string or [None]. *)
Definition py_or (a b : option str) : option str := if truthy a then a else b.

(** The value computed for a field whose role is "Romaji":
    [kana = entry.reading or entry.expression], then [kana_to_romaji] with
    the two flags of the configuration.  On [None] the first test of
    [kana_to_romaji], [not text], returns the empty string. *)
Definition romaji_value (entry : Dictionary.DictEntry)
    (use_macrons use_m_before_bmp : bool) : option str :=
  let kana := py_or (Dictionary.reading entry) (Dictionary.expression entry) in
  match kana with
  | Some text => kana_to_romaji text use_macrons use_m_before_bmp
  | None => Some []
  end.

End Addon.

(** ** A sample entry

    [int] on a string of ASCII digits, and an entry of the dictionary as
    the parser hands it over, for the examples below. *)
Definition int_of_digits (s : str) : option Z :=
  match s with
  | [] => None
  | _ :: _ =>
    fold_left (λ acc c, n ← acc;
                        if bool_decide (0x30 <= c <= 0x39) then Some (10 * n + (c - 0x30))
                        else None)
              s (Some 0)
  end.

Definition leaf (t : string) (txt : string) : XML2SQL.Element :=
  XML2SQL.Elem (Literal.lit t) ∅ (Some (Literal.lit txt)) [].

Definition node (t : string) (cs : list XML2SQL.Element) : XML2SQL.Element :=
  XML2SQL.Elem (Literal.lit t) ∅ None cs.

Definition sample_entry : XML2SQL.Element :=
  node "entry" [
    leaf "ent_seq" "1582710";
    node "k_ele" [leaf "keb" "日本"; leaf "ke_pri" "ichi1"];
    node "r_ele" [leaf "reb" "にほん"];
    node "r_ele" [leaf "reb" "にっぽん"];
    node "sense" [
      leaf "pos" "n";
      leaf "gloss" "Japan";
      XML2SQL.Elem «"gloss"» {[ XML2SQL.XML_LANG := «"ger"» ]} (Some «"Japan"») []
    ];
    node "sense" [leaf "pos" "n"; leaf "pos" "adj-no"; leaf "gloss" "Japanese"]
  ].

(** * Properties *)

(** ** Literals *)

Example lit_kana : «"きゃー"» = [0x304D; 0x3083; 0x30FC].
Proof. reflexivity. Qed.

Example lit_special : «"っんー"» = [SOKUON; MORAIC_N; CHOUON].
Proof. reflexivity. Qed.

Example lit_macrons : «"āīūēō"» = [0x101; 0x12B; 0x16B; 0x113; 0x14D].
Proof. reflexivity. Qed.

Example lit_ascii : «"n'"» = [0x6E; 0x27].
Proof. reflexivity. Qed.

(** ** Normalisation *)

Lemma kata_to_hira_total ch :
  _kata_to_hira ch = Some (if bool_decide (is_katakana ch) then ch - 0x60 else ch).
Proof.
  unfold _kata_to_hira, Py.ord, Py.chr.
  repeat case_bool_decide; unfold is_katakana in *; try done; lia.
Qed.

Lemma kata_to_hira_fixed ch : ¬ is_katakana ch → _kata_to_hira ch = Some ch.
Proof. intros H. rewrite kata_to_hira_total. by rewrite bool_decide_eq_false_2. Qed.

Lemma kata_to_hira_not_katakana ch c : _kata_to_hira ch = Some c → ¬ is_katakana c.
Proof.
  rewrite kata_to_hira_total. unfold is_katakana.
  case_bool_decide; intros [= <-]; lia.
Qed.

Lemma normalize_total text :
  normalize text
  = Some ((λ ch, if bool_decide (is_katakana ch) then ch - 0x60 else ch) <$> text).
Proof.
  unfold normalize. apply mapM_Some_2.
  induction text as [|c text IH]; simpl; constructor; auto using kata_to_hira_total.
Qed.

Lemma normalize_fixed s : Forall (λ c, ¬ is_katakana c) s → normalize s = Some s.
Proof.
  intros H. unfold normalize. apply mapM_Some_2.
  induction H; constructor; auto using kata_to_hira_fixed.
Qed.

Lemma normalize_not_katakana text hira :
  normalize text = Some hira → Forall (λ c, ¬ is_katakana c) hira.
Proof.
  intros H%mapM_Some_1.
  induction H; constructor; eauto using kata_to_hira_not_katakana.
Qed.

(** C7. Normalisation returns a string of the same length in which each
    character of the katakana range 0x30A1..0x30F6 is moved down by 0x60
    and every other character is kept; normalising the result again, or
    normalising a string of hiragana, changes nothing. *)
Theorem normalize_shifts_katakana_idempotent :
  (∀ text : str, ∃ hira : str,
      normalize text = Some hira
      ∧ List.length hira = List.length text
      ∧ (∀ (i : nat) (c : Z), text !! i = Some c →
           hira !! i = Some (if bool_decide (is_katakana c) then c - 0x60 else c))
      ∧ normalize hira = Some hira)
  ∧ (∀ s : str, Forall is_hiragana s → normalize s = Some s).
Proof.
  split.
  - intros text. eexists. split; [apply normalize_total|].
    split; [by rewrite length_fmap|]. split.
    + intros i c Hc. by rewrite list_lookup_fmap, Hc.
    + eapply normalize_fixed, normalize_not_katakana, normalize_total.
  - intros s Hs. apply normalize_fixed. eapply Forall_impl; [exact Hs|].
    unfold is_hiragana, is_katakana. intros c ?. lia.
Qed.

Lemma normalize_shifts_katakana_idempotent_witness :
  Forall is_hiragana «"ひらがな"» ∧ normalize «"ひらがな"» = Some «"ひらがな"».
Proof.
  assert (H : Forall is_hiragana «"ひらがな"»).
  { compute_done. }
  split; [exact H|].
  exact (proj2 normalize_shifts_katakana_idempotent _ H).
Defined.

(** ** The tables *)

Lemma digraph_items_ok : Forall (λ kv, digraph_item_ok kv = true) _HIRA_DIGRAPHS_items.
Proof. compute_done. Qed.

Lemma mono_items_ok : Forall (λ kv : str * str, Forall lower_ascii kv.2) _HIRA_MONO_items.
Proof. compute_done. Qed.

(** A pair of the digraph table starts with a character of the monograph
    table that is none of っ, ん, ー, ends with a character of the monograph
    table, and maps to a non-empty string of lower-case letters. *)
Lemma digraph_lookup_inv (a b : Z) (rom : str) :
  _HIRA_DIGRAPHS !! [a; b] = Some rom →
  a ≠ SOKUON ∧ a ≠ MORAIC_N ∧ a ≠ CHOUON ∧ small_y b
  ∧ is_Some (_HIRA_MONO !! [a]) ∧ is_Some (_HIRA_MONO !! [b])
  ∧ rom ≠ [] ∧ Forall lower_ascii rom.
Proof.
  unfold _HIRA_DIGRAPHS. intros H%elem_of_list_to_map_2.
  pose proof (proj1 (Forall_forall _ _) digraph_items_ok _ H) as Hok.
  unfold digraph_item_ok in Hok; cbn [fst snd] in Hok.
  apply bool_decide_eq_true_1 in Hok. exact Hok.
Qed.

Lemma mono_lookup_lower (k rom : str) :
  _HIRA_MONO !! k = Some rom → Forall lower_ascii rom.
Proof.
  unfold _HIRA_MONO. intros H%elem_of_list_to_map_2.
  exact (proj1 (Forall_forall _ _) mono_items_ok _ H).
Qed.

(** From here on the tables are looked up by evaluation only; proof search
    never unfolds them. *)
Opaque _HIRA_MONO _HIRA_DIGRAPHS.

(** ** The look-ahead helper *)

(** What [_next_romaji_chunk] returns, read off the tables: no indexing of
    the helper is out of range. *)
Lemma next_chunk_eq (hira : str) (pos : nat) :
  _next_romaji_chunk hira pos = Some (peek hira pos).
Proof.
  unfold _next_romaji_chunk, peek. case_bool_decide as Hlen.
  - by rewrite (lookup_ge_None_2 hira pos) by lia.
  - destruct (lookup_lt_is_Some_2 hira pos) as [ch Hch]; [lia|].
    rewrite Hch; simpl. case_bool_decide as Hlen2.
    + destruct (lookup_lt_is_Some_2 hira (pos + 1)) as [ch2 Hch2]; [lia|].
      rewrite Hch2; simpl. by destruct (_HIRA_DIGRAPHS !! [ch; ch2]).
    + by rewrite (lookup_ge_None_2 hira (pos + 1)) by lia.
Qed.

Lemma peek_alphabet (hira : str) (pos : nat) : Forall lower_ascii (peek hira pos).
Proof.
  unfold peek.
  destruct (hira !! pos) as [ch|]; [|constructor].
  assert (Forall lower_ascii (default [] (_HIRA_MONO !! [ch]))) as Hmono.
  { destruct (_HIRA_MONO !! [ch]) eqn:E; simpl; [|constructor].
    eauto using mono_lookup_lower. }
  destruct (hira !! (pos + 1)%nat) as [ch2|]; [|exact Hmono].
  destruct (_HIRA_DIGRAPHS !! [ch; ch2]) eqn:E; [|exact Hmono].
  by apply digraph_lookup_inv in E as (_ & _ & _ & _ & _ & _ & _ & ?).
Qed.

(** Every character of a chunk is a lower-case ASCII letter. *)
Lemma chunk_alphabet (hira : str) (pos : nat) (chunk : str) :
  _next_romaji_chunk hira pos = Some chunk → Forall lower_ascii chunk.
Proof. rewrite next_chunk_eq. intros [= <-]. apply peek_alphabet. Qed.

Lemma lower_ascii_isalpha c : lower_ascii c → Py.isalpha c = true.
Proof.
  unfold lower_ascii, Py.isalpha. intros H.
  rewrite (bool_decide_eq_true_2 (0x61 <= c <= 0x7A)) by done.
  by rewrite orb_true_r.
Qed.

Lemma lower_ascii_lower c : lower_ascii c → Py.lower c = c.
Proof.
  unfold lower_ascii, Py.lower. intros H. rewrite bool_decide_eq_false_2; [done|lia].
Qed.

(** ** One iteration of the loop, branch by branch *)

Lemma special_chars_distinct :
  SOKUON ≠ MORAIC_N ∧ SOKUON ≠ CHOUON ∧ MORAIC_N ≠ CHOUON.
Proof. compute_done. Qed.

Lemma peek_past_end (hira : str) (pos : nat) :
  (List.length hira ≤ pos)%nat → peek hira pos = [].
Proof. intros H. unfold peek. by rewrite lookup_ge_None_2. Qed.

(** The digraph test of the loop body, as a total function. *)
Lemma digraph_test_eq (hira : str) (i : nat) (ch : Z) :
  (if bool_decide (i + 1 < List.length hira)%nat
   then ch2 ← hira !! (i + 1)%nat; Some (_HIRA_DIGRAPHS !! [ch; ch2])
   else Some None)
  = Some (match hira !! (i + 1)%nat with
          | Some ch2 => _HIRA_DIGRAPHS !! [ch; ch2]
          | None => None
          end).
Proof.
  case_bool_decide as Hlen.
  - destruct (lookup_lt_is_Some_2 hira (i + 1)) as [ch2 Hch2]; [lia|].
    by rewrite Hch2.
  - by rewrite lookup_ge_None_2 by lia.
Qed.

Lemma step_sokuon ub (hira : str) (i : nat) (res : list str) :
  hira !! i = Some SOKUON →
  step ub hira (State i res)
  = Some (State (i + 1)
            (res ++ match peek hira (i + 1) with [] => [] | c :: _ => [[c]] end)).
Proof.
  intros Hch. unfold step. cbn [st_i st_result]. rewrite Hch. cbn [mbind option_bind].
  rewrite bool_decide_eq_true_2 by reflexivity.
  case_bool_decide as Hlen.
  - rewrite next_chunk_eq. cbn [mbind option_bind].
    pose proof (peek_alphabet hira (i + 1)) as Hal.
    destruct (peek hira (i + 1)) as [|c chunk]; [reflexivity|].
    apply Forall_cons_1 in Hal as [Hc _].
    by rewrite (lower_ascii_isalpha c Hc).
  - rewrite peek_past_end by lia. reflexivity.
Qed.

Lemma step_nasal ub (hira : str) (i : nat) (res : list str) :
  hira !! i = Some MORAIC_N →
  step ub hira (State i res)
  = Some (State (i + 1)
            (res ++ [nasal_chunk ub (bool_decide (i + 1 = List.length hira)%nat)
                       (peek hira (i + 1))])).
Proof.
  intros Hch. pose proof (lookup_lt_Some _ _ _ Hch) as Hi.
  unfold step. cbn [st_i st_result]. rewrite Hch. cbn [mbind option_bind].
  destruct special_chars_distinct as (Hsn & _ & _).
  rewrite bool_decide_eq_false_2 by (intros E; apply Hsn; by rewrite E).
  rewrite bool_decide_eq_true_2 by reflexivity.
  unfold nasal_chunk. case_bool_decide as Hlen.
  - rewrite bool_decide_eq_true_2 by lia. reflexivity.
  - rewrite bool_decide_eq_false_2 by lia.
    rewrite next_chunk_eq. cbn [mbind option_bind].
    destruct (peek hira (i + 1)) as [|c chunk]; [reflexivity|].
    unfold Py.char_in.
    destruct (bool_decide (Py.lower c ∈ «"aeiouy"»)); [reflexivity|].
    destruct (bool_decide (Py.lower c ∈ «"bmp"»)); [|reflexivity].
    by destruct ub.
Qed.

Lemma step_digraph ub (hira : str) (i : nat) (res : list str) (a b : Z) (rom : str) :
  hira !! i = Some a → hira !! (i + 1)%nat = Some b →
  _HIRA_DIGRAPHS !! [a; b] = Some rom →
  step ub hira (State i res) = Some (State (i + 2) (res ++ [rom])).
Proof.
  intros Ha Hb Hrom.
  destruct (digraph_lookup_inv a b rom Hrom) as (Hs & Hn & _).
  unfold step. cbn [st_i st_result]. rewrite Ha. cbn [mbind option_bind].
  rewrite !bool_decide_eq_false_2 by assumption.
  rewrite digraph_test_eq, Hb, Hrom. reflexivity.
Qed.

(** When the character at the cursor is neither っ nor ん and starts no
    pair of the digraph table, the loop body reaches its last two cases. *)
Lemma step_single ub (hira : str) (i : nat) (res : list str) (ch : Z) :
  hira !! i = Some ch → ch ≠ SOKUON → ch ≠ MORAIC_N → digraph_at hira i = false →
  step ub hira (State i res)
  = (if bool_decide (ch = CHOUON) then
       appended ←
         (match res with
          | [] => Some []
          | _ :: _ => lst ← last res; chouon_scan lst (List.length lst)
          end);
       Some (State (i + 1) (res ++ appended))
     else Some (State (i + 1) (res ++ [default [ch] (_HIRA_MONO !! [ch])]))).
Proof.
  intros Hch Hs Hn Hd. unfold digraph_at in Hd. rewrite Hch in Hd.
  unfold step. cbn [st_i st_result]. rewrite Hch. cbn [mbind option_bind].
  rewrite !bool_decide_eq_false_2 by assumption.
  rewrite digraph_test_eq. cbn [mbind option_bind].
  destruct (hira !! (i + 1)%nat) as [ch2|]; [|reflexivity].
  destruct (_HIRA_DIGRAPHS !! [ch; ch2]) eqn:E; [|reflexivity].
  apply bool_decide_eq_false_1 in Hd. destruct Hd. by eexists.
Qed.

Lemma digraph_at_true (hira : str) (i : nat) :
  digraph_at hira i = true →
  ∃ a b rom, hira !! i = Some a ∧ hira !! (i + 1)%nat = Some b
             ∧ _HIRA_DIGRAPHS !! [a; b] = Some rom.
Proof.
  unfold digraph_at. destruct (hira !! i) as [a|]; [|done].
  destruct (hira !! (i + 1)%nat) as [b|]; [|done].
  intros [rom Hrom]%bool_decide_eq_true_1. by exists a, b, rom.
Qed.

Lemma digraph_at_first (hira : str) (i : nat) (ch : Z) :
  hira !! i = Some ch → ch = SOKUON ∨ ch = MORAIC_N ∨ ch = CHOUON →
  digraph_at hira i = false.
Proof.
  intros Hch Hsp. destruct (digraph_at hira i) eqn:E; [|reflexivity].
  apply digraph_at_true in E as (a & b & rom & Ha & _ & Hrom).
  rewrite Hch in Ha. injection Ha as <-.
  apply digraph_lookup_inv in Hrom as (H1 & H2 & H3 & _).
  destruct Hsp as [?|[?|?]]; contradiction.
Qed.

(** ** The chōon scan *)

Lemma chouon_scan_skip (lst : str) (k n : nat) :
  (∀ j c, (k ≤ j < k + n)%nat → lst !! j = Some c → ¬ is_vowel c) →
  (k + n ≤ List.length lst)%nat →
  chouon_scan lst (k + n) = chouon_scan lst k.
Proof.
  induction n as [|n IH]; intros Hnv Hlen.
  - by rewrite Nat.add_0_r.
  - replace (k + S n)%nat with (S (k + n)) by lia. cbn [chouon_scan].
    destruct (lookup_lt_is_Some_2 lst (k + n)) as [c Hc]; [lia|].
    rewrite Hc. cbn [mbind option_bind]. unfold Py.char_in.
    rewrite bool_decide_eq_false_2 by (apply (Hnv (k + n)%nat); [lia|done]).
    apply IH; [|lia]. intros j c' Hj. apply Hnv. lia.
Qed.

(** Scanning a chunk backward finds its last vowel letter. *)
Lemma chouon_scan_found (l1 l2 : str) (v : Z) :
  is_vowel v → Forall (λ c, ¬ is_vowel c) l2 →
  chouon_scan (l1 ++ v :: l2) (List.length (l1 ++ v :: l2)) = Some [[v]].
Proof.
  intros Hv Hl2. rewrite length_app. cbn [List.length].
  replace (List.length l1 + S (List.length l2))%nat
    with (S (List.length l1) + List.length l2)%nat by lia.
  rewrite chouon_scan_skip.
  - cbn [chouon_scan]. rewrite list_lookup_middle by reflexivity.
    cbn [mbind option_bind]. unfold Py.char_in.
    by rewrite bool_decide_eq_true_2.
  - intros j c Hj Hc.
    rewrite lookup_app_r in Hc by lia.
    destruct (j - List.length l1)%nat as [|j'] eqn:Ej; [lia|].
    cbn in Hc. rewrite Forall_lookup in Hl2. eauto.
  - rewrite length_app. cbn [List.length]. lia.
Qed.

(** A chunk without a vowel letter yields nothing. *)
Lemma chouon_scan_none (lst : str) :
  Forall (λ c, ¬ is_vowel c) lst →
  chouon_scan lst (List.length lst) = Some [].
Proof.
  intros Hl. change (List.length lst) with (0 + List.length lst)%nat.
  rewrite chouon_scan_skip; [reflexivity| |lia].
  intros j c _ Hc. rewrite Forall_lookup in Hl. eauto.
Qed.

(** The scan never indexes out of range and appends at most one chunk. *)
Lemma chouon_scan_total (lst : str) (n : nat) :
  (n ≤ List.length lst)%nat →
  ∃ appended, chouon_scan lst n = Some appended.
Proof.
  induction n as [|n IH]; intros Hn; [by eexists|].
  cbn [chouon_scan].
  destruct (lookup_lt_is_Some_2 lst n) as [c Hc]; [lia|].
  rewrite Hc. cbn [mbind option_bind].
  destruct (Py.char_in c _); [by eexists|]. apply IH. lia.
Qed.

(** ** Every iteration succeeds and moves the cursor forward *)

Lemma step_total ub (hira : str) (st : state) :
  (st_i st < List.length hira)%nat →
  ∃ st', step ub hira st = Some st'
         ∧ st_i st' = (st_i st + if digraph_at hira (st_i st) then 2 else 1)%nat
         ∧ (st_i st' ≤ List.length hira)%nat
         ∧ ∃ appended, st_result st' = st_result st ++ appended.
Proof.
  destruct st as [i res]. cbn [st_i st_result]. intros Hi.
  destruct (lookup_lt_is_Some_2 hira i Hi) as [ch Hch].
  destruct (decide (ch = SOKUON)) as [->|Hs].
  { rewrite step_sokuon by assumption.
    rewrite (digraph_at_first hira i SOKUON) by auto.
    eexists. split; [reflexivity|]. cbn [st_i st_result].
    split; [reflexivity|]. split; [lia|]. by eexists. }
  destruct (decide (ch = MORAIC_N)) as [->|Hn].
  { rewrite step_nasal by assumption.
    rewrite (digraph_at_first hira i MORAIC_N) by auto.
    eexists. split; [reflexivity|]. cbn [st_i st_result].
    split; [reflexivity|]. split; [lia|]. by eexists. }
  destruct (digraph_at hira i) eqn:Hd.
  - destruct (digraph_at_true _ _ Hd) as (a & b & rom & Ha & Hb & Hrom).
    rewrite (step_digraph ub hira i res a b rom) by assumption.
    eexists. split; [reflexivity|]. cbn [st_i st_result].
    split; [reflexivity|]. apply lookup_lt_Some in Hb.
    split; [lia|]. by eexists.
  - rewrite (step_single ub hira i res ch) by assumption.
    case_bool_decide as Hc.
    + assert (∃ appended,
        match res with
        | [] => Some []
        | _ :: _ => lst ← last res; chouon_scan lst (List.length lst)
        end = Some appended) as [appended Happ].
      { destruct res as [|r res']; [by eexists|].
        destruct (last_is_Some (r :: res')) as [_ [lst Hlst]]; [done|].
        rewrite Hlst. cbn [mbind option_bind].
        apply chouon_scan_total. lia. }
      rewrite Happ. cbn [mbind option_bind].
      eexists. split; [reflexivity|]. cbn [st_i st_result].
      split; [reflexivity|]. split; [lia|]. by eexists.
    + eexists. split; [reflexivity|]. cbn [st_i st_result].
      split; [reflexivity|]. split; [lia|]. by eexists.
Qed.

(** ** The loop *)

Lemma loop_exit fuel ub (hira : str) (st : state) :
  (List.length hira ≤ st_i st)%nat → loop fuel ub hira st = Some st.
Proof.
  intros H. destruct fuel; cbn [loop]; by rewrite bool_decide_eq_false_2 by lia.
Qed.

Lemma loop_iterate fuel ub (hira : str) (st : state) :
  (st_i st < List.length hira)%nat →
  loop (S fuel) ub hira st = step ub hira st ≫= loop fuel ub hira.
Proof. intros H. cbn [loop]. by rewrite bool_decide_eq_true_2 by lia. Qed.

Lemma loop_no_fuel ub (hira : str) (st : state) :
  (st_i st < List.length hira)%nat → loop 0 ub hira st = None.
Proof. intros H. cbn [loop]. by rewrite bool_decide_eq_true_2 by lia. Qed.

Lemma iterates_cursor ub (hira : str) (st st' : state) :
  iterates ub hira st st' →
  (st_i st < st_i st' ≤ List.length hira)%nat
  ∧ ∃ appended, st_result st' = st_result st ++ appended.
Proof.
  intros [Hi Hstep].
  destruct (step_total ub hira st Hi) as (st2 & Hstep2 & Hcur & Hle & Happ).
  rewrite Hstep in Hstep2. injection Hstep2 as <-.
  split; [|exact Happ]. destruct (digraph_at hira (st_i st)); lia.
Qed.

Lemma rtc_iterates_cursor ub (hira : str) (st st' : state) :
  rtc (iterates ub hira) st st' →
  (st_i st ≤ st_i st')%nat
  ∧ ((st_i st ≤ List.length hira)%nat → (st_i st' ≤ List.length hira)%nat)
  ∧ ∃ appended, st_result st' = st_result st ++ appended.
Proof.
  induction 1 as [st|st st1 st' Hit _ (IH1 & IH2 & app2 & IH3)].
  - split; [lia|]. split; [done|]. exists []. by rewrite app_nil_r.
  - apply iterates_cursor in Hit as (Hc & app1 & Happ1).
    split; [lia|]. split; [intros; apply IH2; lia|].
    exists (app1 ++ app2). by rewrite IH3, Happ1, app_assoc.
Qed.

(** With fuel for the characters that remain, the loop exits, and it exits
    with the cursor on the length of the string. *)
Lemma loop_enough ub (hira : str) (fuel : nat) (st : state) :
  (st_i st ≤ List.length hira)%nat →
  (List.length hira - st_i st ≤ fuel)%nat →
  ∃ st', loop fuel ub hira st = Some st'
         ∧ st_i st' = List.length hira
         ∧ rtc (iterates ub hira) st st'.
Proof.
  revert st. induction fuel as [|fuel IH]; intros st Hle Hfuel.
  - exists st. rewrite loop_exit by lia. split; [done|]. split; [lia|constructor].
  - destruct (decide (st_i st < List.length hira)%nat) as [Hi|Hi].
    + destruct (step_total ub hira st Hi) as (st1 & Hstep & Hcur & Hle1 & _).
      destruct (IH st1) as (st' & Hloop & Hfin & Hrtc); [lia| |].
      { destruct (digraph_at hira (st_i st)); lia. }
      exists st'. rewrite loop_iterate, Hstep by done. cbn [mbind option_bind].
      split; [done|]. split; [done|].
      eapply rtc_l; [|exact Hrtc]. by split.
    + exists st. rewrite loop_exit by lia. split; [done|]. split; [lia|constructor].
Qed.

(** Whatever the fuel, a loop that returns has run the iterations one after
    the other and has left by the test [i < length]. *)
Lemma loop_Some ub (hira : str) (fuel : nat) (st st' : state) :
  loop fuel ub hira st = Some st' →
  rtc (iterates ub hira) st st' ∧ (List.length hira ≤ st_i st')%nat.
Proof.
  revert st. induction fuel as [|fuel IH]; intros st Hloop.
  - destruct (decide (st_i st < List.length hira)%nat) as [Hi|Hi].
    + by rewrite loop_no_fuel in Hloop.
    + rewrite loop_exit in Hloop by lia. injection Hloop as <-.
      split; [constructor|lia].
  - destruct (decide (st_i st < List.length hira)%nat) as [Hi|Hi].
    + rewrite loop_iterate in Hloop by done.
      destruct (step ub hira st) as [st1|] eqn:Hstep; [|done].
      cbn [mbind option_bind] in Hloop.
      apply IH in Hloop as [Hrtc Hfin]. split; [|done].
      eapply rtc_l; [|exact Hrtc]. by split.
    + rewrite loop_exit in Hloop by lia. injection Hloop as <-.
      split; [constructor|lia].
Qed.

(** A state the loop passes through leads to the same final state. *)
Lemma loop_from_visited ub (hira : str) (st st1 final : state) (fuel : nat) :
  rtc (iterates ub hira) st st1 →
  loop fuel ub hira st = Some final →
  ∃ fuel1, loop fuel1 ub hira st1 = Some final.
Proof.
  intros Hrtc. revert fuel.
  induction Hrtc as [st|st st2 st1 [Hi Hstep] _ IH]; intros fuel Hloop.
  - by exists fuel.
  - destruct fuel as [|fuel]; [by rewrite loop_no_fuel in Hloop|].
    rewrite loop_iterate, Hstep in Hloop by done. eauto.
Qed.

(** The final state of the whole run, on any string. *)
Lemma run_total ub (hira : str) :
  ∃ final, loop (List.length hira) ub hira (State 0 []) = Some final
           ∧ st_i final = List.length hira
           ∧ visits ub hira final.
Proof. apply loop_enough; cbn [st_i]; lia. Qed.

(** A visited state's buffer is a prefix of the final buffer. *)
Lemma visited_prefix ub (hira : str) (st final : state) (fuel : nat) :
  visits ub hira st →
  loop fuel ub hira (State 0 []) = Some final →
  ∃ appended, st_result final = st_result st ++ appended.
Proof.
  intros Hv Hloop.
  destruct (loop_from_visited _ _ _ _ _ _ Hv Hloop) as [fuel1 Hloop1].
  apply loop_Some in Hloop1 as [Hrtc _].
  by apply rtc_iterates_cursor in Hrtc as (_ & _ & ?).
Qed.

(** The cursor stops on every position whose character is not a small
    ya/yu/yo: only the second half of a digraph is stepped over. *)
Lemma cursor_reaches ub (hira : str) (p : nat) :
  (p ≤ List.length hira)%nat →
  (∀ c, hira !! p = Some c → ¬ small_y c) →
  ∃ res, visits ub hira (State p res).
Proof.
  intros Hp Hny.
  assert (∀ n, ∃ st, visits ub hira st ∧ (Nat.min n p ≤ st_i st ≤ p)%nat) as Hn.
  { induction n as [|n (st & Hv & Hst)].
    - exists (State 0 []). split; [constructor|]. cbn [st_i]. lia.
    - destruct (decide (Nat.min (S n) p ≤ st_i st)%nat) as [?|Hlt].
      { exists st. split; [done|lia]. }
      assert (st_i st < List.length hira)%nat as Hi by lia.
      destruct (step_total ub hira st Hi) as (st1 & Hstep & Hcur & _ & _).
      exists st1. split.
      { eapply rtc_r; [exact Hv|]. by split. }
      destruct (digraph_at hira (st_i st)) eqn:Hd; [|lia].
      apply digraph_at_true in Hd as (a & b & rom & _ & Hb & Hrom).
      apply digraph_lookup_inv in Hrom as (_ & _ & _ & Hsy & _).
      destruct (decide (st_i st + 1 = p)%nat) as [E|?]; [|lia].
      rewrite E in Hb. by apply Hny in Hb. }
  destruct (Hn p) as ([i res] & Hv & Hst). cbn [st_i] in Hst.
  exists res. by replace p with i by lia.
Qed.

(** ** The special characters *)

Lemma special_chars_not_small_y :
  ¬ small_y SOKUON ∧ ¬ small_y MORAIC_N ∧ ¬ small_y CHOUON.
Proof. compute_done. Qed.

Lemma peek_unmapped (hira : str) (pos : nat) (ch : Z) :
  hira !! pos = Some ch → _HIRA_MONO !! [ch] = None → peek hira pos = [].
Proof.
  intros Hch Hmono. unfold peek. rewrite Hch, Hmono. cbn [default].
  destruct (hira !! (pos + 1)%nat) as [ch2|]; [|reflexivity].
  destruct (_HIRA_DIGRAPHS !! [ch; ch2]) eqn:E; [|reflexivity].
  apply digraph_lookup_inv in E as (_ & _ & _ & _ & [? Hm] & _). congruence.
Qed.

(** C1. At ん the loop appends "n" when ん is the last character or the
    chunk resolved at the next position is empty, "n'" when that chunk
    starts with a vowel or y, "m" or "n" according to use_m_before_bmp when
    it starts with b, m or p, and "n" otherwise; the cursor moves by one,
    and the cursor stops on every ん.  しんよう gives shin'you; しんぶん gives
    shimbun with the flag and shinbun without it. *)
Theorem moraic_nasal_rule :
  (∀ (ub : bool) (hira : str) (i : nat),
      hira !! i = Some MORAIC_N →
      (∃ chunk, _next_romaji_chunk hira (i + 1) = Some chunk
        ∧ ∀ res, step ub hira (State i res)
                 = Some (State (i + 1)
                     (res ++ [nasal_chunk ub
                                (bool_decide (i + 1 = List.length hira)%nat) chunk])))
      ∧ ∃ res, visits ub hira (State i res))
  ∧ kana_to_romaji «"しんよう"» false true = Some «"shin'you"»
  ∧ kana_to_romaji «"しんよう"» false false = Some «"shin'you"»
  ∧ kana_to_romaji «"しんぶん"» false true = Some «"shimbun"»
  ∧ kana_to_romaji «"しんぶん"» false false = Some «"shinbun"».
Proof.
  split; [|repeat split; vm_compute; reflexivity].
  intros ub hira i Hch. split.
  - exists (peek hira (i + 1)). split; [apply next_chunk_eq|].
    intros res. by apply step_nasal.
  - apply cursor_reaches.
    + apply lookup_lt_Some in Hch. lia.
    + intros c Hc. rewrite Hch in Hc. injection Hc as <-.
      apply special_chars_not_small_y.
Qed.

Lemma moraic_nasal_rule_witness :
  «"しんぶん"» !! 1%nat = Some MORAIC_N
  ∧ ∃ chunk, _next_romaji_chunk «"しんぶん"» (1 + 1) = Some chunk
      ∧ ∀ res, step true «"しんぶん"» (State 1 res)
               = Some (State (1 + 1)
                   (res ++ [nasal_chunk true
                              (bool_decide (1 + 1 = List.length «"しんぶん"»)%nat) chunk])).
Proof.
  assert («"しんぶん"» !! 1%nat = Some MORAIC_N) as H by (vm_compute; reflexivity).
  split; [exact H|].
  exact (proj1 (proj1 moraic_nasal_rule true «"しんぶん"» 1%nat H)).
Defined.

(** C4. At っ the loop appends the first character of the chunk resolved
    one position ahead when that chunk is not empty, and nothing when it is
    empty, as it is at the end of the string and before a character the
    monograph table does not have; the cursor moves by one, and the cursor
    stops on every っ.  がっこう gives gakkou, and gakkō with macrons. *)
Theorem sokuon_rule :
  (∀ (ub : bool) (hira : str) (i : nat),
      hira !! i = Some SOKUON →
      (∃ chunk, _next_romaji_chunk hira (i + 1) = Some chunk
        ∧ (∀ res, step ub hira (State i res)
                  = Some (State (i + 1)
                      (res ++ match chunk with [] => [] | c :: _ => [[c]] end)))
        ∧ ((List.length hira ≤ i + 1)%nat → chunk = [])
        ∧ (∀ ch, hira !! (i + 1)%nat = Some ch → _HIRA_MONO !! [ch] = None →
                 chunk = []))
      ∧ ∃ res, visits ub hira (State i res))
  ∧ (∀ ub, kana_to_romaji «"がっこう"» false ub = Some «"gakkou"»)
  ∧ (∀ ub, kana_to_romaji «"がっこう"» true ub = Some «"gakkō"»).
Proof.
  split; [|split; intros []; vm_compute; reflexivity].
  intros ub hira i Hch. split.
  - exists (peek hira (i + 1)). split; [apply next_chunk_eq|].
    split; [intros res; by apply step_sokuon|].
    split; [apply peek_past_end|apply peek_unmapped].
  - apply cursor_reaches.
    + apply lookup_lt_Some in Hch. lia.
    + intros c Hc. rewrite Hch in Hc. injection Hc as <-.
      apply special_chars_not_small_y.
Qed.

Lemma sokuon_rule_witness :
  «"がっこう"» !! 1%nat = Some SOKUON
  ∧ ∃ res, visits false «"がっこう"» (State 1 res).
Proof.
  assert («"がっこう"» !! 1%nat = Some SOKUON) as H by (vm_compute; reflexivity).
  split; [exact H|].
  exact (proj2 (proj1 sokuon_rule false «"がっこう"» 1%nat H)).
Defined.

(** C5. At ー the loop appends nothing when the buffer is empty; when the
    buffer is not empty it appends, as a chunk of one letter, the last of
    the letters a, e, i, o, u of the last chunk, and nothing if that chunk
    has none; the cursor moves by one, and the cursor stops on every ー. *)
Theorem chouon_rule (ub : bool) (hira : str) (i : nat) :
  hira !! i = Some CHOUON →
  step ub hira (State i []) = Some (State (i + 1) [])
  ∧ (∀ (res : list str) (l1 l2 : str) (v : Z),
        is_vowel v → Forall (λ c, ¬ is_vowel c) l2 →
        step ub hira (State i (res ++ [l1 ++ v :: l2]))
        = Some (State (i + 1) ((res ++ [l1 ++ v :: l2]) ++ [[v]])))
  ∧ (∀ (res : list str) (lst : str),
        Forall (λ c, ¬ is_vowel c) lst →
        step ub hira (State i (res ++ [lst])) = Some (State (i + 1) (res ++ [lst])))
  ∧ ∃ res, visits ub hira (State i res).
Proof.
  intros Hch.
  destruct special_chars_distinct as (_ & Hsc & Hnc).
  assert (∀ res, step ub hira (State i res)
    = (appended ←
         (match res with
          | [] => Some []
          | _ :: _ => lst ← last res; chouon_scan lst (List.length lst)
          end);
       Some (State (i + 1) (res ++ appended)))) as Hstep.
  { intros res.
    rewrite (step_single ub hira i res CHOUON Hch (not_eq_sym Hsc) (not_eq_sym Hnc))
      by (apply (digraph_at_first hira i CHOUON); auto).
    by rewrite bool_decide_eq_true_2. }
  assert (∀ (res : list str) (lst : str),
    step ub hira (State i (res ++ [lst]))
    = (appended ← chouon_scan lst (List.length lst);
       Some (State (i + 1) ((res ++ [lst]) ++ appended)))) as Hlast.
  { intros res lst. rewrite Hstep.
    destruct (res ++ [lst]) as [|r rs] eqn:E.
    { by destruct res. }
    rewrite <- E, last_snoc. reflexivity. }
  split; [by rewrite Hstep|]. split; [|split].
  - intros res l1 l2 v Hv Hl2. by rewrite Hlast, chouon_scan_found.
  - intros res lst Hl. rewrite Hlast, chouon_scan_none by done.
    cbn [mbind option_bind]. by rewrite app_nil_r.
  - apply cursor_reaches.
    + apply lookup_lt_Some in Hch. lia.
    + intros c Hc. rewrite Hch in Hc. injection Hc as <-.
      apply special_chars_not_small_y.
Qed.

Lemma chouon_rule_witness :
  «"らーめん"» !! 1%nat = Some CHOUON
  ∧ step true «"らーめん"» (State 1 ([] ++ [«"r"» ++ 0x61 :: []]))
    = Some (State (1 + 1) (([] ++ [«"r"» ++ 0x61 :: []]) ++ [[0x61]])).
Proof.
  assert («"らーめん"» !! 1%nat = Some CHOUON) as H by (vm_compute; reflexivity).
  split; [exact H|].
  apply (proj1 (proj2 (chouon_rule true «"らーめん"» 1 H))).
  - compute_done.
  - constructor.
Defined.

(** C6. When the cursor is on the first character of a pair of the digraph
    table, the loop appends the table's value for the pair and moves the
    cursor by two; that value is not the two monograph values put
    together, and the pair alone transliterates to it. *)
Theorem digraph_priority (a b : Z) (rom : str) :
  _HIRA_DIGRAPHS !! [a; b] = Some rom →
  (∀ (ub : bool) (hira : str) (i : nat) (res : list str),
      hira !! i = Some a → hira !! (i + 1)%nat = Some b →
      step ub hira (State i res) = Some (State (i + 2) (res ++ [rom])))
  ∧ (∀ ma mb, _HIRA_MONO !! [a] = Some ma → _HIRA_MONO !! [b] = Some mb →
              rom ≠ ma ++ mb)
  ∧ (∀ um ub, kana_to_romaji [a; b] um ub = Some rom).
Proof.
  intros Hrom. split.
  { intros ub hira i res Ha Hb. by apply (step_digraph ub hira i res a b). }
  assert (Forall (λ kv, digraph_item_alone kv = true) _HIRA_DIGRAPHS_items) as Hall.
  { with_strategy transparent [_HIRA_MONO _HIRA_DIGRAPHS] compute_done. }
  assert (([a; b], rom) ∈ _HIRA_DIGRAPHS_items) as Hin.
  { with_strategy transparent [_HIRA_DIGRAPHS]
      (unfold _HIRA_DIGRAPHS in Hrom; by apply elem_of_list_to_map_2 in Hrom). }
  pose proof (proj1 (Forall_forall _ _) Hall _ Hin) as Hok.
  unfold digraph_item_alone in Hok. cbn [fst snd] in Hok.
  apply andb_true_iff in Hok as [Hk Hne].
  apply bool_decide_eq_true_1 in Hk. apply bool_decide_eq_true_1 in Hne.
  split; [|exact Hk].
  intros ma mb Hma Hmb. by rewrite Hma, Hmb in Hne.
Qed.

Lemma digraph_priority_witness :
  _HIRA_DIGRAPHS !! «"きょ"» = Some «"kyo"»
  ∧ kana_to_romaji «"きょ"» true true = Some «"kyo"».
Proof.
  assert (_HIRA_DIGRAPHS !! [0x304D; 0x3087] = Some «"kyo"») as H
    by (vm_compute; reflexivity).
  split; [exact H|].
  exact (proj2 (proj2 (digraph_priority 0x304D 0x3087 _ H)) true true).
Defined.

(** C9. Every iteration moves the cursor forward, by two when the pair at
    the cursor is in the digraph table and by one in every other case, and
    never past the end; the loop returns, and when it returns the cursor is
    the length of the normalised string. *)
Theorem cursor_advances_and_loop_terminates (ub : bool) (hira : str) :
  (∀ st : state,
      (st_i st < List.length hira)%nat →
      ∃ st', step ub hira st = Some st'
             ∧ st_i st' = (st_i st + if digraph_at hira (st_i st) then 2 else 1)%nat
             ∧ (st_i st' ≤ List.length hira)%nat)
  ∧ (∀ st st', visits ub hira st → iterates ub hira st st' →
               (st_i st < st_i st')%nat)
  ∧ (∃ final, loop (List.length hira) ub hira (State 0 []) = Some final
              ∧ st_i final = List.length hira)
  ∧ (∀ fuel final, loop fuel ub hira (State 0 []) = Some final →
                   st_i final = List.length hira).
Proof.
  split; [|split; [|split]].
  - intros st Hi.
    destruct (step_total ub hira st Hi) as (st' & Hstep & Hcur & Hle & _).
    by exists st'.
  - intros st st' _ Hit. by apply iterates_cursor in Hit as [[? _] _].
  - destruct (run_total ub hira) as (final & Hloop & Hfin & _). by exists final.
  - intros fuel final Hloop. apply loop_Some in Hloop as [Hrtc Hge].
    apply rtc_iterates_cursor in Hrtc as (_ & Hle & _).
    cbn [st_i] in Hle. specialize (Hle ltac:(lia)). lia.
Qed.

Lemma cursor_advances_and_loop_terminates_witness :
  (st_i (State 0 []) < List.length «"きょう"»)%nat
  ∧ ∃ st', step true «"きょう"» (State 0 []) = Some st'
           ∧ st_i st' = (st_i (State 0 [])
                         + if digraph_at «"きょう"» (st_i (State 0 [])) then 2 else 1)%nat
           ∧ (st_i st' ≤ List.length «"きょう"»)%nat.
Proof.
  assert (st_i (State 0 []) < List.length «"きょう"»)%nat as H by compute_done.
  split; [exact H|].
  exact (proj1 (cursor_advances_and_loop_terminates true «"きょう"») (State 0 []) H).
Defined.

(** ** The whole function *)

Lemma basic_romaji_total (text : str) (ub : bool) :
  ∃ basic, basic_romaji text ub = Some basic.
Proof.
  unfold basic_romaji. rewrite normalize_total. cbn [mbind option_bind].
  destruct (run_total ub ((λ ch, if bool_decide (is_katakana ch) then ch - 0x60 else ch)
                            <$> text)) as (final & -> & _).
  by eexists.
Qed.

(** C8. [kana_to_romaji] returns a string on every input and for every
    setting of the two flags: no indexing is out of range and the loop
    exits.  The empty string gives the empty string, and a small ya with
    nothing before it gives its monograph value. *)
Theorem kana_to_romaji_never_raises :
  (∀ (text : str) (use_macrons use_m_before_bmp : bool),
      ∃ out, kana_to_romaji text use_macrons use_m_before_bmp = Some out)
  ∧ (∀ use_macrons use_m_before_bmp : bool,
        kana_to_romaji [] use_macrons use_m_before_bmp = Some [])
  ∧ (∀ use_macrons use_m_before_bmp : bool,
        kana_to_romaji «"ゃ"» use_macrons use_m_before_bmp = Some «"ya"»).
Proof.
  split; [|split; intros [] []; vm_compute; reflexivity].
  intros text um ub. unfold kana_to_romaji.
  case_bool_decide; [by eexists|].
  destruct (basic_romaji_total text ub) as [basic ->]. cbn [mbind option_bind].
  destruct um; by eexists.
Qed.

(** ** The flag use_m_before_bmp *)

Lemma step_flag_irrelevant (hira : str) (st : state) :
  hira !! st_i st ≠ Some MORAIC_N → step true hira st = step false hira st.
Proof.
  intros Hn. unfold step.
  destruct (hira !! st_i st) as [ch|]; [|reflexivity]. cbn [mbind option_bind].
  destruct (bool_decide (ch = SOKUON)); [reflexivity|].
  rewrite bool_decide_eq_false_2 by congruence. reflexivity.
Qed.

Lemma loop_flag_irrelevant (hira : str) (fuel : nat) (st : state) :
  MORAIC_N ∉ hira → loop fuel true hira st = loop fuel false hira st.
Proof.
  intros Hn. revert st. induction fuel as [|fuel IH]; intros st; [reflexivity|].
  cbn [loop]. case_bool_decide; [|reflexivity].
  rewrite step_flag_irrelevant.
  - destruct (step false hira st); [apply IH|reflexivity].
  - intros Hc. apply Hn. by eapply list_elem_of_lookup_2.
Qed.

Lemma normalize_no_nasal (text hira : str) :
  MORAIC_N ∉ text → 0x30F3 ∉ text → normalize text = Some hira → MORAIC_N ∉ hira.
Proof.
  intros Hh Hk. rewrite normalize_total. intros [= <-].
  intros (c & Hc & Hin)%list_elem_of_fmap.
  assert (c = MORAIC_N ∨ c = 0x30F3) as [->| ->]; [|done..].
  unfold MORAIC_N, is_katakana in *. case_bool_decide; lia.
Qed.

(** C10. On a text with neither ん nor ン the flag use_m_before_bmp does not
    change the outcome, whatever use_macrons is. *)
Theorem flag_m_only_matters_at_nasal (text : str) (use_macrons : bool) :
  MORAIC_N ∉ text → 0x30F3 ∉ text →
  kana_to_romaji text use_macrons true = kana_to_romaji text use_macrons false.
Proof.
  intros Hh Hk. unfold kana_to_romaji, basic_romaji.
  case_bool_decide; [reflexivity|].
  destruct (normalize text) as [hira|] eqn:Hnorm; [|reflexivity].
  cbn [mbind option_bind].
  by rewrite (loop_flag_irrelevant hira) by eauto using normalize_no_nasal.
Qed.

Lemma flag_m_only_matters_at_nasal_witness :
  (MORAIC_N ∉ «"カタカナ"») ∧ (0x30F3 ∉ «"カタカナ"»)
  ∧ kana_to_romaji «"カタカナ"» true true = kana_to_romaji «"カタカナ"» true false.
Proof.
  assert (MORAIC_N ∉ «"カタカナ"») as H1 by compute_done.
  assert (0x30F3 ∉ «"カタカナ"») as H2 by compute_done.
  split; [exact H1|]. split; [exact H2|].
  exact (flag_m_only_matters_at_nasal _ true H1 H2).
Defined.

(** ** The macron pass *)

Lemma apply_macrons_spec (basic : str) : _apply_macrons basic = macron_pass_spec basic.
Proof. reflexivity. Qed.

(** C2. Without use_macrons the function returns the assembled
    romanisation as it is; with it, the outcome is that romanisation after
    the replacements aa→ā, ii→ī, uu→ū, ee→ē, oo→ō, ou→ō, each applied to the
    outcome of the one before.  とうきょう gives toukyou without macrons and
    tōkyō with them; on ouu the order shows: uu is replaced first. *)
Theorem macron_pass_sequential :
  (∀ (text : str) (ub : bool),
      kana_to_romaji text false ub = basic_romaji text ub
      ∧ kana_to_romaji text true ub = macron_pass_spec <$> basic_romaji text ub)
  ∧ (∀ ub, kana_to_romaji «"とうきょう"» false ub = Some «"toukyou"»)
  ∧ (∀ ub, kana_to_romaji «"とうきょう"» true ub = Some «"tōkyō"»)
  ∧ _apply_macrons «"ouu"» = «"oū"».
Proof.
  split; [|split; [|split]];
    [|intros []; vm_compute; reflexivity..|vm_compute; reflexivity].
  intros text ub. unfold kana_to_romaji. case_bool_decide as Ht.
  - subst text. split; vm_compute; reflexivity.
  - destruct (basic_romaji text ub) as [basic|]; [|done].
    cbn [mbind option_bind fmap option_fmap option_map].
    by rewrite apply_macrons_spec.
Qed.

(** *** Replacement around a character that is in no pattern *)

Lemma startswith_inert (old s y : str) (c : Z) :
  c ∉ old → Py.startswith (s ++ c :: y) old = Py.startswith s old.
Proof.
  revert s. induction old as [|o old IH]; intros s Hc; [by destruct s|].
  apply not_elem_of_cons in Hc as [Hco Hc].
  destruct s as [|a s]; cbn.
  - by rewrite bool_decide_eq_false_2.
  - by rewrite IH.
Qed.

Lemma startswith_length (old s : str) :
  Py.startswith s old = true → (List.length old ≤ List.length s)%nat.
Proof.
  revert s. induction old as [|o old IH]; intros s; cbn; [lia|].
  destruct s as [|a s]; [done|]. cbn.
  intros [_ H]%andb_true_iff. apply IH in H. lia.
Qed.

Lemma replace_from_inert (old new : str) (c : Z) (x y : str) (k : nat) :
  c ∉ old → old ≠ [] → (k ≤ List.length x)%nat →
  Py.replace_from old new k (x ++ c :: y)
  = Py.replace_from old new k x ++ c :: Py.replace_from old new 0 y.
Proof.
  intros Hc Hold. revert k. induction x as [|a x IH]; intros k Hk.
  - cbn in Hk. replace k with 0%nat by lia.
    cbn [app Py.replace_from].
    pose proof (startswith_inert old [] y c Hc) as E. cbn [app] in E.
    rewrite E. by destruct old.
  - cbn [app Py.replace_from]. destruct k as [|k].
    + pose proof (startswith_inert old (a :: x) y c Hc) as E. cbn [app] in E.
      rewrite E.
      destruct (Py.startswith (a :: x) old) eqn:Hsw.
      * apply startswith_length in Hsw. cbn in Hsw.
        rewrite IH by lia. by rewrite app_assoc.
      * by rewrite IH by lia.
    + cbn in Hk. apply IH. lia.
Qed.

Lemma replace_inert (old new : str) (c : Z) (x y : str) :
  c ∉ old → old ≠ [] →
  Py.replace (x ++ c :: y) old new = Py.replace x old new ++ c :: Py.replace y old new.
Proof. intros. unfold Py.replace. apply replace_from_inert; auto with lia. Qed.

Lemma repl_sources : Forall (λ kv : str * str, kv.1 ≠ [] ∧ Forall is_vowel kv.1) repl.
Proof. compute_done. Qed.

(** The macron pass leaves a character that is no vowel letter where it
    is, and works on the two sides of it separately. *)
Lemma apply_macrons_inert (c : Z) (x y : str) :
  ¬ is_vowel c →
  _apply_macrons (x ++ c :: y) = _apply_macrons x ++ c :: _apply_macrons y.
Proof.
  intros Hc. unfold _apply_macrons.
  pose proof repl_sources as Hsrc. revert x y.
  induction Hsrc as [|[src dst] rs [Hne Hv] _ IH]; intros x y; [reflexivity|].
  cbn [fold_left]. cbn [fst] in Hne, Hv. rewrite replace_inert; [apply IH| |done].
  intros Hin. apply Hc. rewrite Forall_forall in Hv. by apply Hv.
Qed.

(** ** A character the monograph table does not have *)

Lemma special_chars_mapped :
  is_Some (_HIRA_MONO !! [SOKUON]) ∧ is_Some (_HIRA_MONO !! [MORAIC_N])
  ∧ is_Some (_HIRA_MONO !! [CHOUON]).
Proof. compute_done. Qed.

Lemma unmapped_not_special (c : Z) :
  _HIRA_MONO !! [c] = None → c ≠ SOKUON ∧ c ≠ MORAIC_N ∧ c ≠ CHOUON.
Proof.
  intros Hc. destruct special_chars_mapped as ([? Hs] & [? Hn] & [? Hl]).
  repeat split; intros ->; congruence.
Qed.

(** It is in no pair of the digraph table, first or second. *)
Lemma unmapped_no_digraph (c d : Z) :
  _HIRA_MONO !! [c] = None →
  _HIRA_DIGRAPHS !! [c; d] = None ∧ _HIRA_DIGRAPHS !! [d; c] = None.
Proof.
  intros Hc. split.
  - destruct (_HIRA_DIGRAPHS !! [c; d]) eqn:E; [|reflexivity].
    apply digraph_lookup_inv in E as (_ & _ & _ & _ & [? Hm] & _). congruence.
  - destruct (_HIRA_DIGRAPHS !! [d; c]) eqn:E; [|reflexivity].
    apply digraph_lookup_inv in E as (_ & _ & _ & _ & _ & [? Hm] & _). congruence.
Qed.

(** The loop appends it as it is and moves on by one. *)
Lemma step_unmapped ub (hira : str) (i : nat) (res : list str) (c : Z) :
  hira !! i = Some c → _HIRA_MONO !! [c] = None →
  step ub hira (State i res) = Some (State (i + 1) (res ++ [[c]])).
Proof.
  intros Hi Hc. destruct (unmapped_not_special c Hc) as (Hs & Hn & Hl).
  rewrite (step_single ub hira i res c Hi Hs Hn).
  - by rewrite bool_decide_eq_false_2, Hc.
  - unfold digraph_at. rewrite Hi.
    destruct (hira !! (i + 1)%nat) as [d|]; [|reflexivity].
    rewrite (proj1 (unmapped_no_digraph c d Hc)).
    apply bool_decide_eq_false_2. by intros [? ?].
Qed.

(** *** What comes before it is scanned as if the string ended there *)

Section Prefix.
Variables (pre post : str) (c : Z).
Hypothesis Hc : _HIRA_MONO !! [c] = None.

Lemma peek_prefix (pos : nat) :
  (pos ≤ List.length pre)%nat → peek (pre ++ c :: post) pos = peek pre pos.
Proof.
  intros Hpos. destruct (decide (pos = List.length pre)) as [->|Hne].
  - rewrite (peek_unmapped _ _ c), peek_past_end; auto.
    by rewrite list_lookup_middle.
  - unfold peek. rewrite lookup_app_l by lia.
    destruct (pre !! pos) as [ch|]; [|reflexivity].
    destruct (decide (pos + 1 = List.length pre)%nat) as [E|?].
    + rewrite E, list_lookup_middle by reflexivity.
      rewrite (lookup_ge_None_2 pre) by lia.
      by rewrite (proj2 (unmapped_no_digraph c ch Hc)).
    + by rewrite lookup_app_l by lia.
Qed.

Lemma digraph_at_prefix (i : nat) :
  (i < List.length pre)%nat →
  digraph_at (pre ++ c :: post) i = digraph_at pre i.
Proof.
  intros Hi. unfold digraph_at. rewrite lookup_app_l by lia.
  destruct (pre !! i) as [ch|]; [|reflexivity].
  destruct (decide (i + 1 = List.length pre)%nat) as [E|?].
  - rewrite E, list_lookup_middle by reflexivity.
    rewrite (lookup_ge_None_2 pre) by lia.
    rewrite (proj2 (unmapped_no_digraph c ch Hc)).
    apply bool_decide_eq_false_2. by intros [? ?].
  - by rewrite lookup_app_l by lia.
Qed.

Lemma step_prefix ub (i : nat) (res : list str) :
  (i < List.length pre)%nat →
  step ub (pre ++ c :: post) (State i res) = step ub pre (State i res).
Proof.
  intros Hi. destruct (lookup_lt_is_Some_2 pre i Hi) as [ch Hch].
  assert ((pre ++ c :: post) !! i = Some ch) as Hch'.
  { by rewrite lookup_app_l. }
  destruct (decide (ch = SOKUON)) as [->|Hs].
  { rewrite !step_sokuon by assumption. by rewrite peek_prefix by lia. }
  destruct (decide (ch = MORAIC_N)) as [->|Hn].
  { rewrite !step_nasal by assumption. rewrite peek_prefix by lia.
    rewrite length_app. cbn [List.length].
    rewrite (bool_decide_eq_false_2 (i + 1 = _ + _)%nat) by lia.
    case_bool_decide as Hlast; [|reflexivity].
    rewrite peek_past_end by lia. reflexivity. }
  destruct (digraph_at pre i) eqn:Hd.
  - destruct (digraph_at_true _ _ Hd) as (a & b & rom & Ha & Hb & Hrom).
    rewrite (step_digraph ub pre i res a b rom) by assumption.
    apply step_digraph with a b; [| |assumption].
    + by apply lookup_app_l_Some.
    + by apply lookup_app_l_Some.
  - rewrite (step_single ub pre i res ch) by assumption.
    apply step_single; try assumption.
    by rewrite digraph_at_prefix.
Qed.

Lemma visits_prefix ub (st : state) :
  visits ub pre st →
  visits ub (pre ++ c :: post) st ∧ (st_i st ≤ List.length pre)%nat.
Proof.
  unfold visits. revert st.
  apply (rtc_ind_r (λ st, rtc (iterates ub (pre ++ c :: post)) (State 0 []) st
                          ∧ (st_i st ≤ List.length pre)%nat)).
  - split; [constructor|cbn [st_i]; lia].
  - intros st st' _ [Hi Hstep] [IH1 IH2]. split.
    + eapply rtc_r; [exact IH1|]. split.
      * rewrite length_app. lia.
      * destruct st as [i res]. by rewrite step_prefix.
    + assert (iterates ub pre st st') as Hit by (by split).
      apply iterates_cursor in Hit. lia.
Qed.
End Prefix.

Lemma chouon_branch_nonempty (res : list str) :
  res ≠ [] →
  match res with
  | [] => Some []
  | _ :: _ => lst ← last res; chouon_scan lst (List.length lst)
  end = (lst ← last res; chouon_scan lst (List.length lst)).
Proof. by destruct res. Qed.

(** *** What comes after a position is scanned without looking back

    The loop looks forward only, and of the buffer it reads only the last
    chunk: on [l1 ++ l2], from a cursor in [l2] and with a buffer that is
    not empty, it runs as on [l2] alone. *)

Section Suffix.
Variables (l1 l2 : str) (r1 : list str).

Local Abbreviation here := (shifted (List.length l1) r1).

Lemma lookup_shift (p : nat) : (l1 ++ l2) !! (List.length l1 + p)%nat = l2 !! p.
Proof. rewrite lookup_app_r by lia. f_equal. lia. Qed.

Lemma peek_shift (p : nat) : peek (l1 ++ l2) (List.length l1 + p) = peek l2 p.
Proof.
  unfold peek. rewrite <- Nat.add_assoc. by rewrite !lookup_shift.
Qed.

Lemma digraph_at_shift (p : nat) :
  digraph_at (l1 ++ l2) (List.length l1 + p) = digraph_at l2 p.
Proof.
  unfold digraph_at. rewrite <- Nat.add_assoc. by rewrite !lookup_shift.
Qed.

Lemma step_shift ub (j : nat) (r2 : list str) :
  r2 ≠ [] → (j < List.length l2)%nat →
  step ub (l1 ++ l2) (here (State j r2)) = here <$> step ub l2 (State j r2).
Proof.
  intros Hr2 Hj. unfold shifted at 1. cbn [st_i st_result].
  destruct (lookup_lt_is_Some_2 l2 j Hj) as [ch Hch].
  assert ((l1 ++ l2) !! (List.length l1 + j)%nat = Some ch) as Hch'.
  { by rewrite lookup_shift. }
  destruct (decide (ch = SOKUON)) as [->|Hs].
  { rewrite !step_sokuon by assumption.
    rewrite <- Nat.add_assoc, peek_shift. cbn. unfold shifted. cbn [st_i st_result].
    by rewrite app_assoc. }
  destruct (decide (ch = MORAIC_N)) as [->|Hn].
  { rewrite !step_nasal by assumption.
    rewrite <- Nat.add_assoc, peek_shift, length_app.
    rewrite (bool_decide_ext (List.length l1 + (j + 1) = List.length l1 + List.length l2)%nat
               (j + 1 = List.length l2)%nat) by lia.
    cbn. unfold shifted. cbn [st_i st_result]. by rewrite app_assoc. }
  destruct (digraph_at l2 j) eqn:Hd.
  - destruct (digraph_at_true _ _ Hd) as (a & b & rom & Ha & Hb & Hrom).
    rewrite (step_digraph ub l2 j r2 a b rom) by assumption.
    rewrite (step_digraph ub (l1 ++ l2) _ _ a b rom).
    + cbn. unfold shifted. cbn [st_i st_result].
      by rewrite app_assoc, Nat.add_assoc.
    + rewrite lookup_shift. congruence.
    + by rewrite <- Nat.add_assoc, lookup_shift.
    + assumption.
  - rewrite (step_single ub l2 j r2 ch) by assumption.
    rewrite (step_single ub (l1 ++ l2) _ _ ch)
      by (try assumption; by rewrite digraph_at_shift).
    case_bool_decide.
    + rewrite !chouon_branch_nonempty by (try done; by intros [? ?]%app_eq_nil).
      rewrite last_app.
      destruct (proj2 (last_is_Some r2) Hr2) as [lst ->].
      cbn [mbind option_bind].
      destruct (chouon_scan lst (List.length lst)) as [appended|]; [|reflexivity].
      cbn. unfold shifted. cbn [st_i st_result].
      by rewrite app_assoc, Nat.add_assoc.
    + cbn. unfold shifted. cbn [st_i st_result].
      by rewrite app_assoc, Nat.add_assoc.
Qed.

Lemma run_shift ub (st st' : state) :
  st_result st ≠ [] →
  rtc (iterates ub l2) st st' →
  rtc (iterates ub (l1 ++ l2)) (here st) (here st').
Proof.
  intros Hne Hrtc.
  induction Hrtc as [st|st st1 st' Hit _ IH]; [constructor|].
  eapply rtc_l; [|apply IH].
  - destruct Hit as [Hi Hstep]. split.
    + unfold shifted. cbn [st_i]. rewrite length_app. lia.
    + destruct st as [j r2]. cbn [st_i st_result] in *.
      by rewrite step_shift, Hstep.
  - apply iterates_cursor in Hit as [_ [appended ->]].
    intros [? _]%app_eq_nil. contradiction.
Qed.
End Suffix.

(** Two states the loop passes through with the cursor at the end are the
    same state. *)
Lemma final_state_unique ub (hira : str) (st a b : state) :
  (st_i st ≤ List.length hira)%nat →
  rtc (iterates ub hira) st a → (List.length hira ≤ st_i a)%nat →
  rtc (iterates ub hira) st b → (List.length hira ≤ st_i b)%nat →
  a = b.
Proof.
  intros Hst Ha Hia Hb Hib.
  destruct (loop_enough ub hira (List.length hira) st) as (final & Hloop & _);
    [lia..|].
  destruct (loop_from_visited _ _ _ _ _ _ Ha Hloop) as [fa Hfa].
  destruct (loop_from_visited _ _ _ _ _ _ Hb Hloop) as [fb Hfb].
  rewrite loop_exit in Hfa, Hfb by done. congruence.
Qed.

(** ** Characters that pass through *)

(** The assembled romanisation splits at a character the monograph table
    does not have: what comes before it is transliterated as if the text
    ended there, the character is kept, and what follows is transliterated
    as in the text that starts at the character. *)
Lemma basic_romaji_unmapped (pre post : str) (c : Z) (ub : bool) :
  ¬ is_katakana c → _HIRA_MONO !! [c] = None →
  ∃ out_pre out_post,
    basic_romaji pre ub = Some out_pre
    ∧ basic_romaji (c :: post) ub = Some (c :: out_post)
    ∧ basic_romaji (pre ++ c :: post) ub = Some (out_pre ++ c :: out_post).
Proof.
  intros Hk Hc. unfold basic_romaji.
  set (f := λ ch : Z, if bool_decide (is_katakana ch) then ch - 0x60 else ch).
  assert (f c = c) as Hfc by (unfold f; by rewrite bool_decide_eq_false_2).
  rewrite !normalize_total. fold f. cbn [mbind option_bind].
  rewrite fmap_app, !fmap_cons, Hfc.
  set (hpre := f <$> pre). set (hpost := f <$> post).
  (* the run on the prefix *)
  destruct (run_total ub hpre) as ([ip B] & Hloop_pre & Hip & Hv_pre).
  cbn [st_i] in Hip. subst ip.
  (* the run on the character and what follows *)
  destruct (run_total ub (c :: hpost)) as ([ic R] & Hloop_c & Hic & Hv_c).
  cbn [st_i] in Hic. subst ic.
  assert (iterates ub (c :: hpost) (State 0 []) (State 1 [[c]])) as Hfirst.
  { split; [cbn; lia|]. by apply (step_unmapped ub (c :: hpost) 0 [] c). }
  assert (rtc (iterates ub (c :: hpost)) (State 1 [[c]])
            (State (List.length (c :: hpost)) R)) as Hrun_c.
  { apply rtc_inv in Hv_c as [[=]|(mid & [_ Hmid] & Hrest)].
    destruct Hfirst as [_ Hfirst]. by replace mid with (State 1 [[c]]) in Hrest by congruence. }
  destruct (rtc_iterates_cursor _ _ _ _ Hrun_c) as (_ & _ & app_c & HR).
  cbn [st_result] in HR. subst R.
  (* the run on the whole string *)
  destruct (run_total ub (hpre ++ c :: hpost)) as (final & Hloop & Hfin & Hv).
  assert (visits ub (hpre ++ c :: hpost)
            (State (List.length (hpre ++ c :: hpost)) (B ++ [[c]] ++ app_c))) as Hv'.
  { destruct (visits_prefix hpre hpost c Hc ub _ Hv_pre) as [Hv1 _].
    unfold visits in *. etrans; [exact Hv1|].
    apply (run_shift hpre (c :: hpost) B ub) in Hrun_c; [|done].
    unfold shifted in Hrun_c. cbn [st_i st_result] in Hrun_c.
    rewrite length_app.
    eapply rtc_l; [|exact Hrun_c]. split.
    - cbn [st_i]. rewrite length_app. cbn [List.length]. lia.
    - apply step_unmapped; [|done]. by rewrite list_lookup_middle. }
  assert (final = State (List.length (hpre ++ c :: hpost)) (B ++ [[c]] ++ app_c)) as ->.
  { eapply (final_state_unique ub (hpre ++ c :: hpost) (State 0 []));
      eauto; cbn [st_i]; lia. }
  exists (concat B), (concat app_c).
  rewrite Hloop_pre, Hloop_c, Hloop. cbn [mbind option_bind st_result].
  split; [done|]. split; [done|].
  by rewrite !concat_app.
Qed.

(** C3 (amended). A character outside the katakana range that the
    monograph table does not have is kept where it is: the text before it
    is transliterated as if it ended there, the character follows
    unchanged, and then comes what the text from the character on gives
    after the character.  This holds without macrons for every such
    character, and with macrons when the character is none of the letters
    a, i, u, e, o. *)
Theorem unmapped_char_passes_through
    (pre post : str) (c : Z) (use_macrons use_m_before_bmp : bool) :
  ¬ is_katakana c → _HIRA_MONO !! [c] = None →
  use_macrons = false ∨ ¬ is_vowel c →
  ∃ out_pre out_post,
    kana_to_romaji pre use_macrons use_m_before_bmp = Some out_pre
    ∧ kana_to_romaji (c :: post) use_macrons use_m_before_bmp = Some (c :: out_post)
    ∧ kana_to_romaji (pre ++ c :: post) use_macrons use_m_before_bmp
      = Some (out_pre ++ c :: out_post).
Proof.
  intros Hk Hc Hum.
  destruct (basic_romaji_unmapped pre post c use_m_before_bmp Hk Hc)
    as (bpre & bpost & Hpre & Hcpost & Hall).
  assert (∀ um, kana_to_romaji pre um use_m_before_bmp
                = Some (if um then _apply_macrons bpre else bpre)) as Hpre'.
  { intros um. unfold kana_to_romaji. case_bool_decide as E.
    - subst pre. vm_compute in Hpre. injection Hpre as <-. by destruct um.
    - rewrite Hpre. by destruct um. }
  rewrite Hpre'. unfold kana_to_romaji.
  rewrite (bool_decide_eq_false_2 (c :: post = [])) by done.
  rewrite (bool_decide_eq_false_2 (pre ++ c :: post = []))
    by (by intros [_ ?]%app_eq_nil).
  rewrite Hcpost, Hall. cbn [mbind option_bind].
  destruct use_macrons.
  - destruct Hum as [?|Hv]; [done|].
    exists (_apply_macrons bpre), (_apply_macrons bpost). split; [done|]. split.
    + pose proof (apply_macrons_inert c [] bpost Hv) as E.
      change (_apply_macrons []) with (@nil Z) in E. cbn [app] in E. by rewrite E.
    + by rewrite (apply_macrons_inert c bpre bpost Hv).
  - by exists bpre, bpost.
Qed.

Lemma unmapped_char_passes_through_witness :
  ¬ is_katakana 0x6F ∧ _HIRA_MONO !! [0x6F] = None
  ∧ ∃ out_pre out_post,
      kana_to_romaji «"と"» false true = Some out_pre
      ∧ kana_to_romaji (0x6F :: «"う"») false true = Some (0x6F :: out_post)
      ∧ kana_to_romaji («"と"» ++ (0x6F :: «"う"»)) false true
        = Some (out_pre ++ 0x6F :: out_post).
Proof.
  assert (¬ is_katakana 0x6F) as H1 by compute_done.
  assert (_HIRA_MONO !! [0x6F] = None) as H2 by (vm_compute; reflexivity).
  split; [exact H1|]. split; [exact H2|].
  exact (unmapped_char_passes_through «"と"» «"う"» 0x6F false true H1 H2
           (or_introl eq_refl)).
Defined.

(** C3 as stated fails with macrons: the Latin letter a is outside the
    katakana range, in neither table and none of っ, ん, ー, yet of the text
    aa the macron pass leaves the one letter ā. *)
Lemma latin_vowels_merged_by_macron_pass :
  ¬ is_katakana 0x61
  ∧ _HIRA_MONO !! [0x61] = None
  ∧ digraph_at «"aa"» 0 = false
  ∧ (0x61 ∉ [SOKUON; MORAIC_N; CHOUON])
  ∧ kana_to_romaji «"aa"» true true = Some «"ā"»
  ∧ (0x61 ∉ «"ā"»).
Proof. repeat split; compute_done. Qed.

(** * Further properties of the engine *)

(** ** Access to the items of the tables *)

Lemma mono_lookup_item (k rom : str) :
  _HIRA_MONO !! k = Some rom → (k, rom) ∈ _HIRA_MONO_items.
Proof.
  with_strategy transparent [_HIRA_MONO]
    (unfold _HIRA_MONO; apply elem_of_list_to_map_2).
Qed.

Lemma digraph_lookup_item (k rom : str) :
  _HIRA_DIGRAPHS !! k = Some rom → (k, rom) ∈ _HIRA_DIGRAPHS_items.
Proof.
  with_strategy transparent [_HIRA_DIGRAPHS]
    (unfold _HIRA_DIGRAPHS; apply elem_of_list_to_map_2).
Qed.

(** ** The script of the input *)

(** X1. Two texts with the same normalisation, such as a word in katakana
    and the same word in hiragana, have the same transliteration under
    every setting of the flags. *)
Theorem same_normalisation_same_romaji (t1 t2 : str) (um ub : bool) :
  normalize t1 = normalize t2 →
  kana_to_romaji t1 um ub = kana_to_romaji t2 um ub.
Proof.
  intros Hn. unfold kana_to_romaji, basic_romaji. rewrite Hn.
  assert (t1 = [] ↔ t2 = []) as Hnil.
  { rewrite !normalize_total in Hn. injection Hn as Hn.
    apply (f_equal List.length) in Hn. rewrite !length_fmap in Hn.
    split; intros ->; [by destruct t2|by destruct t1]. }
  by rewrite (bool_decide_ext _ _ Hnil).
Qed.

Lemma same_normalisation_same_romaji_witness :
  normalize «"トーキョー"» = normalize «"とーきょー"»
  ∧ kana_to_romaji «"トーキョー"» true true = kana_to_romaji «"とーきょー"» true true.
Proof.
  assert (normalize «"トーキョー"» = normalize «"とーきょー"») as H
    by (vm_compute; reflexivity).
  split; [exact H|].
  exact (same_normalisation_same_romaji _ _ true true H).
Defined.

(** ** Single characters *)

(** X2. A key of the monograph table, transliterated alone, gives the
    value the table has for it, under every setting of the flags; for っ
    and ー that is the empty string. *)
Theorem monograph_alone (k rom : str) (um ub : bool) :
  _HIRA_MONO !! k = Some rom → kana_to_romaji k um ub = Some rom.
Proof.
  intros H%mono_lookup_item.
  assert (Forall (λ kv : str * str,
            ∀ um ub : bool, kana_to_romaji kv.1 um ub = Some kv.2)
            _HIRA_MONO_items) as Hall by compute_done.
  exact (proj1 (Forall_forall _ _) Hall _ H um ub).
Qed.

Lemma monograph_alone_witness :
  _HIRA_MONO !! «"つ"» = Some «"tsu"»
  ∧ kana_to_romaji «"つ"» true false = Some «"tsu"».
Proof.
  assert (_HIRA_MONO !! «"つ"» = Some «"tsu"») as H by (vm_compute; reflexivity).
  split; [exact H|].
  exact (monograph_alone _ _ true false H).
Defined.

(** ** Text without kana *)

Lemma loop_unmapped ub (hira : str) (fuel i : nat) (res : list str) :
  Forall (λ c, _HIRA_MONO !! [c] = None) hira →
  (i ≤ List.length hira)%nat → (List.length hira - i ≤ fuel)%nat →
  loop fuel ub hira (State i res)
  = Some (State (List.length hira) (res ++ ((λ c, [c]) <$> drop i hira))).
Proof.
  intros Hall. revert i res. induction fuel as [|fuel IH]; intros i res Hi Hfuel.
  - rewrite loop_exit by (cbn [st_i]; lia).
    replace i with (List.length hira) by lia.
    by rewrite drop_all, app_nil_r.
  - destruct (decide (i < List.length hira)%nat) as [Hlt|Hge].
    + destruct (lookup_lt_is_Some_2 hira i Hlt) as [c Hc].
      rewrite loop_iterate by done.
      rewrite (step_unmapped ub hira i res c Hc)
        by (rewrite Forall_lookup in Hall; eauto).
      cbn [mbind option_bind]. rewrite Nat.add_1_r, IH by lia.
      rewrite (drop_S hira c i Hc), fmap_cons.
      by rewrite <- app_assoc.
    + rewrite loop_exit by (cbn [st_i]; lia).
      replace i with (List.length hira) by lia.
      by rewrite drop_all, app_nil_r.
Qed.

Lemma concat_singletons (l : str) : concat ((λ c, [c]) <$> l) = l.
Proof. induction l as [|c l IH]; [done|]. cbn. by rewrite IH. Qed.

(** X8. A text none of whose characters is in the katakana range or in
    the monograph table (Latin letters, digits, kanji, punctuation) comes
    back as it is without macrons, and with macrons it comes back as the
    macron pass leaves it. *)
Theorem foreign_text_unchanged (text : str) (ub : bool) :
  Forall (λ c, ¬ is_katakana c ∧ _HIRA_MONO !! [c] = None) text →
  kana_to_romaji text false ub = Some text
  ∧ kana_to_romaji text true ub = Some (_apply_macrons text).
Proof.
  intros Hall.
  assert (basic_romaji text ub = Some text) as Hbasic.
  { unfold basic_romaji.
    rewrite normalize_fixed by (eapply Forall_impl; [exact Hall|]; by intros ? [? _]).
    cbn [mbind option_bind].
    rewrite loop_unmapped; [| |cbn; lia..].
    - cbn [mbind option_bind st_result app]. by rewrite drop_0, concat_singletons.
    - eapply Forall_impl; [exact Hall|]. by intros ? [_ ?]. }
  unfold kana_to_romaji. case_bool_decide as E.
  - subst text. split; vm_compute; reflexivity.
  - by rewrite Hbasic.
Qed.

Lemma foreign_text_unchanged_witness :
  Forall (λ c, ¬ is_katakana c ∧ _HIRA_MONO !! [c] = None) «"JLPT N5 漢字"»
  ∧ kana_to_romaji «"JLPT N5 漢字"» false true = Some «"JLPT N5 漢字"».
Proof.
  assert (Forall (λ c, ¬ is_katakana c ∧ _HIRA_MONO !! [c] = None) «"JLPT N5 漢字"»)
    as H by compute_done.
  split; [exact H|].
  exact (proj1 (foreign_text_unchanged _ true H)).
Defined.

(** ** What one iteration appends *)

Lemma nasal_chunk_cases ub (is_last : bool) (lookahead : str) :
  nasal_chunk ub is_last lookahead ∈ [«"n"»; «"n'"»; «"m"»].
Proof.
  unfold nasal_chunk. destruct is_last; [set_solver|].
  destruct lookahead as [|c ?]; [set_solver|].
  destruct (bool_decide (Py.lower c ∈ «"aeiouy"»)); [set_solver|].
  destruct (bool_decide (Py.lower c ∈ «"bmp"»)); [|set_solver].
  destruct ub; set_solver.
Qed.

Lemma is_vowel_lower (v : Z) : is_vowel v → lower_ascii v.
Proof.
  assert (Forall lower_ascii «"aeiou"») as H by compute_done.
  rewrite Forall_forall in H. apply H.
Qed.

Lemma chouon_scan_result (lst : str) (n : nat) (appended : list str) :
  chouon_scan lst n = Some appended →
  appended = [] ∨ ∃ v, appended = [[v]] ∧ is_vowel v.
Proof.
  induction n as [|n IH]; cbn [chouon_scan]; [intros [= <-]; by left|].
  destruct (lst !! n) as [c|]; [|done]. cbn [mbind option_bind].
  unfold Py.char_in. case_bool_decide as Hv; [|exact IH].
  intros [= <-]. right. by exists c.
Qed.

Lemma mono_value_facts (ch : Z) (rom : str) :
  _HIRA_MONO !! [ch] = Some rom →
  (List.length rom ≤ 3)%nat ∧ (rom = [] → ch = SOKUON ∨ ch = CHOUON).
Proof.
  intros H%mono_lookup_item.
  assert (Forall (λ kv : str * str,
            (List.length kv.2 ≤ 3)%nat
            ∧ (kv.2 = [] → kv.1 = [SOKUON] ∨ kv.1 = [CHOUON]))
            _HIRA_MONO_items) as Hall by compute_done.
  destruct (proj1 (Forall_forall _ _) Hall _ H) as [Hlen He]. cbn [fst snd] in *.
  split; [exact Hlen|]. intros E. destruct (He E) as [[= ->]|[= ->]]; auto.
Qed.

Lemma digraph_value_length (k rom : str) :
  _HIRA_DIGRAPHS !! k = Some rom → (List.length rom ≤ 3)%nat.
Proof.
  intros H%digraph_lookup_item.
  assert (Forall (λ kv : str * str, (List.length kv.2 ≤ 3)%nat)
            _HIRA_DIGRAPHS_items) as Hall by compute_done.
  exact (proj1 (Forall_forall _ _) Hall _ H).
Qed.

Lemma lower_chunk_char (hira chunk : str) :
  Forall lower_ascii chunk → Forall (chunk_char hira) chunk.
Proof. intros H. eapply Forall_impl; [exact H|]. intros c ?. by left. Qed.

Lemma single_chunk_ok (hira chunk : str) :
  chunk ≠ [] → Forall (chunk_char hira) chunk →
  Forall (λ chunk, chunk ≠ [] ∧ Forall (chunk_char hira) chunk) [chunk].
Proof. intros. constructor; [split; assumption|constructor]. Qed.

(** Every iteration appends chunks that are not empty, are made of
    lower-case letters, the apostrophe and characters of the text that the
    monograph table lacks, and have at most three characters in all. *)
Lemma step_appended ub (hira : str) (st : state) :
  (st_i st < List.length hira)%nat →
  ∃ appended,
    step ub hira st
    = Some (State (st_i st + if digraph_at hira (st_i st) then 2 else 1)
                  (st_result st ++ appended))
    ∧ Forall (λ chunk, chunk ≠ [] ∧ Forall (chunk_char hira) chunk) appended
    ∧ (List.length (concat appended) ≤ 3)%nat.
Proof.
  destruct st as [i res]. cbn [st_i st_result]. intros Hi.
  destruct (lookup_lt_is_Some_2 hira i Hi) as [ch Hch].
  destruct (decide (ch = SOKUON)) as [->|Hs].
  { rewrite step_sokuon by assumption.
    rewrite (digraph_at_first hira i SOKUON) by auto.
    eexists. split; [reflexivity|].
    pose proof (peek_alphabet hira (i + 1)) as Hal.
    destruct (peek hira (i + 1)) as [|c chunk]; [split; [constructor|cbn; lia]|].
    apply Forall_cons_1 in Hal as [Hc _].
    split; [|cbn; lia]. apply single_chunk_ok; [done|].
    constructor; [by left|constructor]. }
  destruct (decide (ch = MORAIC_N)) as [->|Hn].
  { rewrite step_nasal by assumption.
    rewrite (digraph_at_first hira i MORAIC_N) by auto.
    eexists. split; [reflexivity|].
    pose proof (nasal_chunk_cases ub (bool_decide (i + 1 = List.length hira)%nat)
                  (peek hira (i + 1))) as Hcases.
    assert (Forall (λ chunk : str,
              (chunk ≠ [] ∧ Forall (λ c, lower_ascii c ∨ c = 0x27) chunk)
              ∧ (List.length chunk ≤ 3)%nat) [«"n"»; «"n'"»; «"m"»]) as Hall
      by compute_done.
    rewrite Forall_forall in Hall. destruct (Hall _ Hcases) as [[Hne Hal] Hlen].
    split; [|cbn; rewrite app_nil_r; lia].
    apply single_chunk_ok; [done|].
    eapply Forall_impl; [exact Hal|]. intros c [?|?]; [by left|right; by left]. }
  destruct (digraph_at hira i) eqn:Hd.
  - destruct (digraph_at_true _ _ Hd) as (a & b & rom & Ha & Hb & Hrom).
    rewrite (step_digraph ub hira i res a b rom) by assumption.
    eexists. split; [reflexivity|].
    pose proof (digraph_value_length _ _ Hrom).
    apply digraph_lookup_inv in Hrom as (_ & _ & _ & _ & _ & _ & Hne & Hal).
    split; [|cbn; rewrite app_nil_r; lia].
    apply single_chunk_ok; [done|by apply lower_chunk_char].
  - rewrite (step_single ub hira i res ch) by assumption.
    case_bool_decide as Hc.
    + destruct (step_total ub hira (State i res) Hi) as (st' & Hstep & _).
      rewrite (step_single ub hira i res ch) in Hstep by assumption.
      rewrite bool_decide_eq_true_2 in Hstep by done.
      destruct (match res with
                | [] => Some []
                | _ :: _ => lst ← last res; chouon_scan lst (List.length lst)
                end) as [appended|] eqn:Happ; [|done].
      cbn [mbind option_bind]. exists appended. split; [reflexivity|].
      assert (appended = [] ∨ ∃ v, appended = [[v]] ∧ is_vowel v) as [->|(v & -> & Hv)].
      { destruct res as [|r res']; [left; congruence|].
        destruct (last (r :: res')) as [lst|]; [|done].
        cbn [mbind option_bind] in Happ. by eapply chouon_scan_result. }
      * split; [constructor|cbn; lia].
      * split; [|cbn; lia]. apply single_chunk_ok; [done|].
        constructor; [|constructor]. left. by apply is_vowel_lower.
    + eexists. split; [reflexivity|].
      destruct (_HIRA_MONO !! [ch]) as [rom|] eqn:Hm;
        cbn [default from_option]; unfold id.
      * destruct (mono_value_facts ch rom Hm) as [Hlen He].
        split; [|cbn; rewrite app_nil_r; lia].
        apply single_chunk_ok.
        -- intros ->. destruct He as [?|?]; done.
        -- apply lower_chunk_char. by eapply mono_lookup_lower.
      * split; [|cbn; lia]. apply single_chunk_ok; [done|].
        constructor; [|constructor].
        right; right. split; [|done]. by eapply list_elem_of_lookup_2.
Qed.

(** The buffer of every state the loop passes through: chunks that are
    not empty, over the alphabet of [chunk_char], at most three
    characters for each position passed. *)
Lemma visits_buffer ub (hira : str) (st : state) :
  visits ub hira st →
  Forall (λ chunk, chunk ≠ [] ∧ Forall (chunk_char hira) chunk) (st_result st)
  ∧ (List.length (concat (st_result st)) ≤ 3 * st_i st)%nat.
Proof.
  unfold visits. revert st.
  apply (rtc_ind_r (λ st,
    Forall (λ chunk, chunk ≠ [] ∧ Forall (chunk_char hira) chunk) (st_result st)
    ∧ (List.length (concat (st_result st)) ≤ 3 * st_i st)%nat)).
  - split; [constructor|cbn; lia].
  - intros st st' _ [Hi Hstep] [IH1 IH2].
    destruct (step_appended ub hira st Hi) as (appended & Hstep' & Hok & Hlen).
    rewrite Hstep in Hstep'. injection Hstep' as ->. cbn [st_i st_result].
    split; [by apply Forall_app|].
    rewrite concat_app, length_app.
    destruct (digraph_at hira (st_i st)); lia.
Qed.

Lemma replace_from_chars (P : Z → Prop) (old new : str) (k : nat) (s : str) :
  Forall P s → Forall P new → Forall P (Py.replace_from old new k s).
Proof.
  intros Hs Hnew. revert k. induction Hs as [|c s Hc Hs IH]; intros k; [constructor|].
  cbn [Py.replace_from]. destruct k; [|apply IH].
  destruct (Py.startswith (c :: s) old).
  - apply Forall_app. split; [exact Hnew|apply IH].
  - constructor; [exact Hc|apply IH].
Qed.

Lemma replace_from_length (old new : str) (k : nat) (s : str) :
  (List.length new ≤ List.length old)%nat →
  (List.length (Py.replace_from old new k s) ≤ List.length s - k)%nat.
Proof.
  intros Hlen. revert k. induction s as [|c s IH]; intros k; [cbn; lia|].
  cbn [Py.replace_from]. destruct k as [|k].
  - destruct (Py.startswith (c :: s) old) eqn:Hsw.
    + apply startswith_length in Hsw. cbn [List.length] in *.
      rewrite length_app. specialize (IH (List.length old - 1)%nat). lia.
    + cbn [List.length]. specialize (IH 0%nat). lia.
  - cbn [List.length]. specialize (IH k). lia.
Qed.

Lemma apply_macrons_chars (P : Z → Prop) (s : str) :
  Forall P s → Forall P macron_letters → Forall P (_apply_macrons s).
Proof.
  intros Hs Hm. unfold _apply_macrons.
  assert (Forall (λ kv : str * str, Forall (λ c, c ∈ macron_letters) kv.2) repl)
    as Hrepl by compute_done.
  revert s Hs. induction Hrepl as [|[src dst] rs Hdst _ IH]; intros s Hs; [exact Hs|].
  cbn [fold_left]. apply IH. apply replace_from_chars; [exact Hs|].
  cbn [snd] in Hdst. rewrite Forall_forall in Hm.
  eapply Forall_impl; [exact Hdst|]. exact Hm.
Qed.

Lemma apply_macrons_length (s : str) :
  (List.length (_apply_macrons s) ≤ List.length s)%nat.
Proof.
  unfold _apply_macrons.
  assert (Forall (λ kv : str * str, (List.length kv.2 ≤ List.length kv.1)%nat) repl)
    as Hrepl by compute_done.
  revert s. induction Hrepl as [|[src dst] rs Hlen _ IH]; intros s; [done|].
  cbn [fold_left]. etrans; [apply IH|].
  pose proof (replace_from_length src dst 0 s Hlen). unfold Py.replace. lia.
Qed.

(** The facts on which the two theorems below rest, for the assembled
    romanisation. *)
Lemma basic_romaji_facts (text : str) (ub : bool) :
  ∃ hira basic,
    normalize text = Some hira
    ∧ basic_romaji text ub = Some basic
    ∧ Forall (chunk_char hira) basic
    ∧ (List.length basic ≤ 3 * List.length text)%nat.
Proof.
  destruct (normalize text) as [hira|] eqn:Hn; [|by rewrite normalize_total in Hn].
  destruct (run_total ub hira) as (final & Hloop & Hfin & Hv).
  exists hira, (concat (st_result final)).
  split; [done|]. split; [unfold basic_romaji; by rewrite Hn; cbn; rewrite Hloop|].
  destruct (visits_buffer ub hira final Hv) as [Hok Hlen].
  split.
  - apply Forall_concat. eapply Forall_impl; [exact Hok|]. by intros ? [_ ?].
  - apply length_mapM in Hn. lia.
Qed.

(** X3. The outcome is made of lower-case ASCII letters, the apostrophe,
    characters of the normalised text that the monograph table lacks and,
    with macrons, the five macron letters.  So a text whose characters are
    all in the monograph table after normalisation comes out in ASCII
    letters and apostrophes when macrons are off. *)
Theorem output_alphabet (text : str) (um ub : bool) :
  ∃ hira out,
    normalize text = Some hira
    ∧ kana_to_romaji text um ub = Some out
    ∧ Forall (λ c, chunk_char hira c ∨ (um = true ∧ c ∈ macron_letters)) out
    ∧ (um = false → Forall (λ c, is_Some (_HIRA_MONO !! [c])) hira →
       Forall (λ c, lower_ascii c ∨ c = 0x27) out).
Proof.
  destruct (basic_romaji_facts text ub) as (hira & basic & Hn & Hb & Hal & _).
  assert (∃ out, kana_to_romaji text um ub = Some out
    ∧ Forall (λ c, chunk_char hira c ∨ (um = true ∧ c ∈ macron_letters)) out)
    as (out & Hout & Hchars).
  { unfold kana_to_romaji. case_bool_decide as E.
    - exists []. split; [done|constructor].
    - rewrite Hb. cbn [mbind option_bind]. destruct um.
      + eexists. split; [reflexivity|]. apply apply_macrons_chars.
        * eapply Forall_impl; [exact Hal|]. intros c ?. by left.
        * apply Forall_forall. intros c ?. by right.
      + eexists. split; [reflexivity|].
        eapply Forall_impl; [exact Hal|]. intros c ?. by left. }
  exists hira, out. split; [done|]. split; [done|]. split; [done|].
  intros -> Hmapped. eapply Forall_impl; [exact Hchars|].
  intros c [[?|[?|[Hin Hnone]]]|[? _]]; [by left|by right| |done].
  rewrite Forall_forall in Hmapped. destruct (Hmapped c Hin) as [? ?]. congruence.
Qed.

(** X4. The outcome has at most three characters for each character of
    the text, with or without macrons. *)
Theorem output_length_bound (text : str) (um ub : bool) :
  ∃ out, kana_to_romaji text um ub = Some out
         ∧ (List.length out ≤ 3 * List.length text)%nat.
Proof.
  destruct (basic_romaji_facts text ub) as (hira & basic & _ & Hb & _ & Hlen).
  unfold kana_to_romaji. case_bool_decide as E.
  - exists []. split; [done|cbn; lia].
  - rewrite Hb. cbn [mbind option_bind]. destruct um.
    + eexists. split; [reflexivity|].
      pose proof (apply_macrons_length basic). lia.
    + by exists basic.
Qed.

(** ** The look-ahead helper and the loop *)

(** X6. On a character other than っ, ん and ー that starts a pair of the
    digraph table or is a key of the monograph table, the loop appends
    exactly the chunk [_next_romaji_chunk] resolves at that position: the
    helper and the loop agree on digraph priority and on the tables. *)
Theorem loop_appends_resolved_chunk ub (hira : str) (i : nat) (res : list str) (ch : Z) :
  hira !! i = Some ch →
  ch ≠ SOKUON → ch ≠ MORAIC_N → ch ≠ CHOUON →
  digraph_at hira i = true ∨ is_Some (_HIRA_MONO !! [ch]) →
  ∃ chunk,
    _next_romaji_chunk hira i = Some chunk
    ∧ step ub hira (State i res)
      = Some (State (i + if digraph_at hira i then 2 else 1) (res ++ [chunk])).
Proof.
  intros Hch Hs Hn Hl Hmapped. exists (peek hira i).
  split; [apply next_chunk_eq|]. unfold peek. rewrite Hch.
  destruct (digraph_at hira i) eqn:Hd.
  - destruct (digraph_at_true _ _ Hd) as (a & b & rom & Ha & Hb & Hrom).
    assert (a = ch) as -> by congruence.
    rewrite Hb, Hrom. by apply (step_digraph ub hira i res ch b).
  - destruct Hmapped as [?|[rom Hrom]]; [done|].
    rewrite (step_single ub hira i res ch) by assumption.
    rewrite bool_decide_eq_false_2 by done. rewrite Hrom.
    unfold digraph_at in Hd. rewrite Hch in Hd.
    destruct (hira !! (i + 1)%nat) as [ch2|]; [|done].
    destruct (_HIRA_DIGRAPHS !! [ch; ch2]) eqn:E; [|done].
    apply bool_decide_eq_false_1 in Hd. destruct Hd. by eexists.
Qed.

Lemma loop_appends_resolved_chunk_witness :
  ∃ chunk,
    _next_romaji_chunk «"としょかん"» 1 = Some chunk
    ∧ step true «"としょかん"» (State 1 [«"to"»])
      = Some (State (1 + if digraph_at «"としょかん"» 1 then 2 else 1)
                    ([«"to"»] ++ [chunk])).
Proof.
  apply (loop_appends_resolved_chunk true «"としょかん"» 1 [«"to"»] 0x3057).
  - vm_compute; reflexivity.
  - compute_done.
  - compute_done.
  - compute_done.
  - left. vm_compute; reflexivity.
Defined.

(** ** The macron pass as a normal form *)

Lemma replace_from_drop (old new : str) (k : nat) (s : str) :
  Py.replace_from old new k s = Py.replace_from old new 0 (drop k s).
Proof.
  revert k. induction s as [|c s IH]; intros k; [by destruct k|].
  destruct k as [|k]; [done|]. cbn [Py.replace_from drop]. apply IH.
Qed.

(** [replace] for a pattern of two characters and a replacement of one. *)
Lemma replace_pair_single (x y z c : Z) : Py.replace [c] [x; y] [z] = [c].
Proof.
  unfold Py.replace. cbn [Py.replace_from Py.startswith].
  by destruct (bool_decide (c = x)).
Qed.

Lemma replace_pair_cons (x y z a b : Z) (s : str) :
  Py.replace (a :: b :: s) [x; y] [z]
  = if bool_decide (a = x ∧ b = y) then z :: Py.replace s [x; y] [z]
    else a :: Py.replace (b :: s) [x; y] [z].
Proof.
  unfold Py.replace. cbn [Py.replace_from].
  assert (Py.startswith (a :: b :: s) [x; y] = bool_decide (a = x ∧ b = y)) as ->.
  { assert (Py.startswith s [] = true) as Hs by (by destruct s).
    cbn [Py.startswith]. rewrite Hs, andb_true_r.
    repeat case_bool_decide; try reflexivity; exfalso; intuition congruence. }
  case_bool_decide; [|done].
  change (List.length [x; y] - 1)%nat with 1%nat.
  by rewrite (replace_from_drop _ _ 1).
Qed.

Lemma has_pair_eq (x y a b : Z) (t : str) :
  has_pair x y (a :: b :: t)
  = bool_decide (a = x ∧ b = y) || has_pair x y (b :: t).
Proof. reflexivity. Qed.

Lemma has_pair_cons (x y a : Z) (t : str) :
  has_pair x y t = true → has_pair x y (a :: t) = true.
Proof. destruct t as [|b t]; [done|]. intros H. by rewrite has_pair_eq, H, orb_true_r. Qed.

Lemma has_pair_tail (x y a : Z) (t : str) :
  has_pair x y (a :: t) = false → has_pair x y t = false.
Proof.
  intros H. destruct (has_pair x y t) eqn:E; [|done].
  by rewrite (has_pair_cons x y a t E) in H.
Qed.

Lemma occurs_has_pair (x y : Z) (s : str) :
  occurs [x; y] s ↔ has_pair x y s = true.
Proof.
  split.
  - intros (l1 & l2 & ->). induction l1 as [|a l1 IH].
    + cbn [app]. by rewrite has_pair_eq, bool_decide_eq_true_2.
    + apply has_pair_cons, IH.
  - induction s as [|a s IH]; [done|]. destruct s as [|b s]; [done|].
    rewrite has_pair_eq. intros [H|H]%orb_true_iff.
    + apply bool_decide_eq_true_1 in H as [-> ->]. by exists [], s.
    + destruct (IH H) as (l1 & l2 & E). exists (a :: l1), l2. by rewrite E.
Qed.

Section ReplacePair.
Variables (x y z : Z).
Hypotheses (Hzx : z ≠ x) (Hzy : z ≠ y).

Lemma replace_pair_head (b h : Z) (s t : str) :
  Py.replace (b :: s) [x; y] [z] = h :: t → h = z ∨ h = b.
Proof.
  destruct s as [|c s].
  - rewrite replace_pair_single. intros [= <- _]. by right.
  - rewrite replace_pair_cons. case_bool_decide; intros [= <- _]; auto.
Qed.

Lemma replace_pair_clears_bounded (n : nat) (s : str) :
  (List.length s ≤ n)%nat → has_pair x y (Py.replace s [x; y] [z]) = false.
Proof.
  revert s. induction n as [|n IH]; intros s Hn.
  { destruct s; [done|cbn in Hn; lia]. }
  destruct s as [|a [|b s]]; [done|by rewrite replace_pair_single|].
  cbn [List.length] in Hn. rewrite replace_pair_cons. case_bool_decide as Hm.
  - pose proof (IH s ltac:(lia)) as IHs.
    destruct (Py.replace s [x; y] [z]) as [|h t]; [done|].
    rewrite has_pair_eq. rewrite bool_decide_eq_false_2 by (by intros [? _]).
    exact IHs.
  - pose proof (IH (b :: s) ltac:(cbn [List.length]; lia)) as IHs.
    destruct (Py.replace (b :: s) [x; y] [z]) as [|h t] eqn:E; [done|].
    rewrite has_pair_eq. rewrite IHs, orb_false_r.
    apply bool_decide_eq_false_2. intros [-> ->].
    destruct (replace_pair_head _ _ _ _ E) as [? | ->]; [done|]. by apply Hm.
Qed.

Lemma replace_pair_keeps_bounded (p q : Z) (n : nat) (s : str) :
  z ≠ p → z ≠ q → (List.length s ≤ n)%nat →
  has_pair p q s = false → has_pair p q (Py.replace s [x; y] [z]) = false.
Proof.
  intros Hzp Hzq. revert s. induction n as [|n IH]; intros s Hn Hs.
  { destruct s; [done|cbn in Hn; lia]. }
  destruct s as [|a [|b s]]; [done|by rewrite replace_pair_single|].
  cbn [List.length] in Hn. rewrite has_pair_eq in Hs.
  apply orb_false_iff in Hs as [Hab Hs]. apply bool_decide_eq_false_1 in Hab.
  rewrite replace_pair_cons. case_bool_decide as Hm.
  - pose proof (IH s ltac:(lia) (has_pair_tail _ _ _ _ Hs)) as IHs.
    destruct (Py.replace s [x; y] [z]) as [|h t]; [done|].
    rewrite has_pair_eq. rewrite bool_decide_eq_false_2 by (by intros [? _]).
    exact IHs.
  - pose proof (IH (b :: s) ltac:(cbn [List.length]; lia) Hs) as IHs.
    destruct (Py.replace (b :: s) [x; y] [z]) as [|h t] eqn:E; [done|].
    rewrite has_pair_eq. rewrite IHs, orb_false_r.
    apply bool_decide_eq_false_2. intros [-> ->].
    destruct (replace_pair_head _ _ _ _ E) as [? | ->]; [done|]. by apply Hab.
Qed.

Lemma replace_pair_id (s : str) :
  has_pair x y s = false → Py.replace s [x; y] [z] = s.
Proof.
  induction s as [|a s IH]; [done|]. destruct s as [|b s].
  { intros _. apply replace_pair_single. }
  intros Hs. pose proof (has_pair_tail _ _ _ _ Hs) as Ht.
  rewrite has_pair_eq in Hs. apply orb_false_iff in Hs as [Hab _].
  rewrite replace_pair_cons, Hab. by rewrite IH.
Qed.
End ReplacePair.

Lemma repl_rules_ok : Forall (λ kv, macron_rule_ok kv = true) repl.
Proof. compute_done. Qed.

Lemma macron_rule_inv (kv : str * str) :
  macron_rule_ok kv = true →
  ∃ x y z, kv = ([x; y], [z]) ∧ is_vowel x ∧ is_vowel y ∧ ¬ is_vowel z.
Proof.
  destruct kv as [[|x [|y [|? ?]]] [|z [|? ?]]]; try done.
  cbn. intros H%bool_decide_eq_true_1. by exists x, y, z.
Qed.

Local Abbreviation macron_fold :=
  (fold_left (λ (s : str) '(src, dst), Py.replace s src dst)).

Lemma vowel_not_vowel (v z : Z) : is_vowel v → ¬ is_vowel z → z ≠ v.
Proof. intros Hv Hz ->. contradiction. Qed.

Lemma macron_rules_keep (rs : list (str * str)) (p q : Z) :
  Forall (λ kv, macron_rule_ok kv = true) rs →
  is_vowel p → is_vowel q →
  ∀ s, has_pair p q s = false → has_pair p q (macron_fold rs s) = false.
Proof.
  intros Hrs Hp Hq. induction Hrs as [|kv rs Hok _ IH]; intros s Hs; [done|].
  destruct (macron_rule_inv kv Hok) as (x & y & z & -> & Hx & Hy & Hz).
  cbn [fold_left]. apply IH.
  apply (replace_pair_keeps_bounded x y z p q (List.length s));
    eauto using vowel_not_vowel.
Qed.

Lemma macron_rules_clear (rs : list (str * str)) (x y : Z) (dst : str) :
  Forall (λ kv, macron_rule_ok kv = true) rs →
  ([x; y], dst) ∈ rs →
  ∀ s, has_pair x y (macron_fold rs s) = false.
Proof.
  intros Hrs. induction Hrs as [|kv rs Hok Hrs IH]; intros Hin s.
  { by apply elem_of_nil in Hin. }
  destruct (macron_rule_inv kv Hok) as (x0 & y0 & z0 & -> & Hx & Hy & Hz).
  cbn [fold_left]. apply elem_of_cons in Hin as [E|Hin].
  - injection E as -> -> ->. apply macron_rules_keep; [done..|].
    apply (replace_pair_clears_bounded x0 y0 z0) with (n := List.length s);
      eauto using vowel_not_vowel.
  - by apply IH.
Qed.

Lemma macron_rules_id (rs : list (str * str)) (s : str) :
  Forall (λ kv, macron_rule_ok kv = true) rs →
  (∀ x y dst, ([x; y], dst) ∈ rs → has_pair x y s = false) →
  macron_fold rs s = s.
Proof.
  intros Hrs. induction Hrs as [|kv rs Hok _ IH]; intros Hs; [done|].
  destruct (macron_rule_inv kv Hok) as (x & y & z & -> & _).
  cbn [fold_left]. rewrite (replace_pair_id x y z) by (eapply Hs; by left).
  apply IH. intros x' y' dst Hin. eapply Hs. by right.
Qed.

Lemma macron_source_inv (old : str) :
  old ∈ [«"aa"»; «"ii"»; «"uu"»; «"ee"»; «"oo"»; «"ou"»] →
  ∃ x y dst, old = [x; y] ∧ ([x; y], dst) ∈ repl.
Proof.
  change [«"aa"»; «"ii"»; «"uu"»; «"ee"»; «"oo"»; «"ou"»] with (repl.*1).
  intros ([src dst] & -> & Hin)%list_elem_of_fmap.
  pose proof (proj1 (Forall_forall _ _) repl_rules_ok _ Hin) as Hok.
  destruct (macron_rule_inv _ Hok) as (x & y & z & [= -> ->] & _).
  by exists x, y, [z].
Qed.

Lemma apply_macrons_clears (s old : str) :
  old ∈ [«"aa"»; «"ii"»; «"uu"»; «"ee"»; «"oo"»; «"ou"»] →
  ¬ occurs old (_apply_macrons s).
Proof.
  intros (x & y & dst & -> & Hin)%macron_source_inv.
  rewrite occurs_has_pair. unfold _apply_macrons.
  by rewrite (macron_rules_clear repl x y dst repl_rules_ok Hin).
Qed.

(** X5. With macrons, the outcome contains none of the sequences aa, ii,
    uu, ee, oo, ou: the six replacements, in their order, leave no
    occurrence of any of them behind. *)
Theorem macron_output_has_no_long_vowel_pair (text : str) (ub : bool) :
  ∃ out, kana_to_romaji text true ub = Some out
         ∧ ∀ old, old ∈ [«"aa"»; «"ii"»; «"uu"»; «"ee"»; «"oo"»; «"ou"»] →
                  ¬ occurs old out.
Proof.
  assert (∃ basic, kana_to_romaji text true ub = Some (_apply_macrons basic))
    as [basic ->].
  { unfold kana_to_romaji. case_bool_decide; [by exists []|].
    destruct (basic_romaji_total text ub) as [basic ->]. by exists basic. }
  eexists. split; [reflexivity|]. intros old. apply apply_macrons_clears.
Qed.

(** X7. The macron pass leaves unchanged every string that contains none
    of the sequences aa, ii, uu, ee, oo, ou; applied to its own outcome it
    changes nothing. *)
Theorem apply_macrons_idempotent :
  (∀ s : str,
      (∀ old, old ∈ [«"aa"»; «"ii"»; «"uu"»; «"ee"»; «"oo"»; «"ou"»] →
              ¬ occurs old s) →
      _apply_macrons s = s)
  ∧ (∀ s : str, _apply_macrons (_apply_macrons s) = _apply_macrons s).
Proof.
  assert (∀ s : str,
      (∀ old, old ∈ [«"aa"»; «"ii"»; «"uu"»; «"ee"»; «"oo"»; «"ou"»] →
              ¬ occurs old s) →
      _apply_macrons s = s) as Hid.
  { intros s Hs. unfold _apply_macrons.
    apply macron_rules_id; [exact repl_rules_ok|].
    intros x y dst Hin.
    destruct (has_pair x y s) eqn:E; [|done].
    apply occurs_has_pair in E. destruct (Hs [x; y]); [|done].
    change [«"aa"»; «"ii"»; «"uu"»; «"ee"»; «"oo"»; «"ou"»] with (repl.*1).
    apply list_elem_of_fmap. by exists ([x; y], dst). }
  split; [exact Hid|].
  intros s. apply Hid. intros old. apply apply_macrons_clears.
Qed.

Lemma apply_macrons_idempotent_witness :
  (∀ old, old ∈ [«"aa"»; «"ii"»; «"uu"»; «"ee"»; «"oo"»; «"ou"»] →
          ¬ occurs old «"sakura"»)
  ∧ _apply_macrons «"sakura"» = «"sakura"».
Proof.
  assert (∀ old, old ∈ [«"aa"»; «"ii"»; «"uu"»; «"ee"»; «"oo"»; «"ou"»] →
                 ¬ occurs old «"sakura"») as H.
  { intros old (x & y & dst & -> & Hin)%macron_source_inv.
    rewrite occurs_has_pair.
    assert (Forall (λ kv : str * str,
              match kv.1 with
              | [x; y] => has_pair x y «"sakura"» = false
              | _ => True
              end) repl) as Hall.
    { repeat constructor. }
    pose proof (proj1 (Forall_forall _ _) Hall _ Hin) as Hf. cbn [fst] in Hf.
    by rewrite Hf. }
  split; [exact H|].
  exact (proj1 apply_macrons_idempotent «"sakura"» H).
Defined.

(** ** When the outcome is empty *)

Lemma step_appends_one ub (hira : str) (i : nat) (res : list str) (ch : Z) :
  hira !! i = Some ch → ch ≠ SOKUON → ch ≠ CHOUON →
  ∃ chunk i', step ub hira (State i res) = Some (State i' (res ++ [chunk]))
              ∧ chunk ≠ [].
Proof.
  intros Hch Hs Hl.
  destruct (decide (ch = MORAIC_N)) as [->|Hn].
  { rewrite step_nasal by assumption. do 2 eexists. split; [reflexivity|].
    pose proof (nasal_chunk_cases ub (bool_decide (i + 1 = List.length hira)%nat)
                  (peek hira (i + 1))) as Hcases.
    assert (Forall (λ chunk : str, chunk ≠ []) [«"n"»; «"n'"»; «"m"»]) as Hall
      by compute_done.
    rewrite Forall_forall in Hall. by apply Hall. }
  destruct (digraph_at hira i) eqn:Hd.
  - destruct (digraph_at_true _ _ Hd) as (a & b & rom & Ha & Hb & Hrom).
    rewrite (step_digraph ub hira i res a b rom) by assumption.
    do 2 eexists. split; [reflexivity|].
    by apply digraph_lookup_inv in Hrom as (_ & _ & _ & _ & _ & _ & ? & _).
  - rewrite (step_single ub hira i res ch) by assumption.
    rewrite bool_decide_eq_false_2 by done.
    do 2 eexists. split; [reflexivity|].
    destruct (_HIRA_MONO !! [ch]) as [rom|] eqn:Hm;
      cbn [default from_option]; unfold id; [|done].
    destruct (mono_value_facts ch rom Hm) as [_ He].
    intros ->. destruct He as [?|?]; done.
Qed.

(** Every position is either one the cursor stops on or the second half
    of a digraph taken from the position before. *)
Lemma cursor_covers ub (hira : str) (p : nat) :
  (p < List.length hira)%nat →
  ∃ st, visits ub hira st
        ∧ (st_i st = p
           ∨ ((st_i st + 1)%nat = p ∧ digraph_at hira (st_i st) = true)).
Proof.
  intros Hp.
  assert (∀ n,
    (∃ st, visits ub hira st ∧ (Nat.min n p ≤ st_i st ≤ p)%nat)
    ∨ (∃ st, visits ub hira st
             ∧ (st_i st + 1)%nat = p ∧ digraph_at hira (st_i st) = true)) as Hn.
  { induction n as [|n [(st & Hv & Hst)|Hdone]]; [| |by right].
    - left. exists (State 0 []). split; [constructor|]. cbn [st_i]. lia.
    - destruct (decide (Nat.min (S n) p ≤ st_i st)%nat) as [?|Hlt].
      { left. exists st. split; [done|lia]. }
      assert (st_i st < List.length hira)%nat as Hi by lia.
      destruct (step_total ub hira st Hi) as (st1 & Hstep & Hcur & _ & _).
      assert (visits ub hira st1) as Hv1.
      { eapply rtc_r; [exact Hv|]. by split. }
      destruct (digraph_at hira (st_i st)) eqn:Hd.
      + destruct (decide (st_i st + 1 = p)%nat) as [E|?].
        * right. by exists st.
        * left. exists st1. split; [done|lia].
      + left. exists st1. split; [done|lia]. }
  destruct (Hn p) as [(st & Hv & Hst)|(st & Hv & Hst)].
  - exists st. split; [done|]. left. lia.
  - exists st. split; [done|]. by right.
Qed.

Lemma run_not_empty ub (hira : str) (st final : state) (ch : Z) :
  visits ub hira st → hira !! st_i st = Some ch → ch ≠ SOKUON → ch ≠ CHOUON →
  loop (List.length hira) ub hira (State 0 []) = Some final →
  concat (st_result final) ≠ [].
Proof.
  intros Hv Hch Hs Hl Hloop. destruct st as [i res]. cbn [st_i] in Hch.
  destruct (step_appends_one ub hira i res ch Hch Hs Hl)
    as (chunk & i' & Hstep & Hne).
  assert (visits ub hira (State i' (res ++ [chunk]))) as Hv'.
  { eapply rtc_r; [exact Hv|]. split; [|exact Hstep].
    cbn [st_i]. by eapply lookup_lt_Some. }
  destruct (visited_prefix ub hira _ final _ Hv' Hloop) as [appended Happ].
  cbn [st_result] in Happ. rewrite Happ, !concat_app. cbn [concat].
  destruct chunk; [done|]. intros E.
  apply app_eq_nil in E as [E _]. apply app_eq_nil in E as [_ E]. done.
Qed.

Lemma peek_silent (hira : str) (pos : nat) :
  Forall (λ c, c = SOKUON ∨ c = CHOUON) hira → peek hira pos = [].
Proof.
  intros Hall. unfold peek.
  destruct (hira !! pos) as [ch|] eqn:Hch; [|done].
  assert (ch = SOKUON ∨ ch = CHOUON) as Hsp.
  { rewrite Forall_lookup in Hall. eauto. }
  assert (default [] (_HIRA_MONO !! [ch]) = []) as ->.
  { destruct Hsp as [-> | ->]; vm_compute; reflexivity. }
  destruct (hira !! (pos + 1)%nat) as [ch2|]; [|done].
  destruct (_HIRA_DIGRAPHS !! [ch; ch2]) eqn:E; [|done].
  apply digraph_lookup_inv in E as (? & _ & ? & _). by destruct Hsp.
Qed.

Lemma loop_silent ub (hira : str) (fuel i : nat) :
  Forall (λ c, c = SOKUON ∨ c = CHOUON) hira →
  (i ≤ List.length hira)%nat → (List.length hira - i ≤ fuel)%nat →
  loop fuel ub hira (State i []) = Some (State (List.length hira) []).
Proof.
  intros Hall. revert i. induction fuel as [|fuel IH]; intros i Hi Hfuel.
  - rewrite loop_exit by (cbn [st_i]; lia). by replace i with (List.length hira) by lia.
  - destruct (decide (i < List.length hira)%nat) as [Hlt|Hge].
    + destruct (lookup_lt_is_Some_2 hira i Hlt) as [ch Hch].
      rewrite loop_iterate by done.
      assert (step ub hira (State i []) = Some (State (i + 1) [])) as ->.
      { rewrite Forall_lookup in Hall. destruct (Hall i ch Hch) as [-> | ->].
        - rewrite step_sokuon by done.
          by rewrite peek_silent by (by apply Forall_lookup).
        - destruct special_chars_distinct as (_ & Hsc & Hnc).
          rewrite (step_single ub hira i [] CHOUON Hch (not_eq_sym Hsc) (not_eq_sym Hnc))
            by (apply (digraph_at_first hira i CHOUON); auto).
          by rewrite bool_decide_eq_true_2. }
      cbn [mbind option_bind]. apply IH; lia.
    + rewrite loop_exit by (cbn [st_i]; lia). by replace i with (List.length hira) by lia.
Qed.

Lemma replace_nil_inv (s old new : str) :
  new ≠ [] → Py.replace s old new = [] → s = [].
Proof.
  intros Hnew. unfold Py.replace. destruct s as [|c s]; [done|].
  cbn [Py.replace_from]. destruct (Py.startswith (c :: s) old); [|done].
  by intros [? _]%app_eq_nil.
Qed.

Lemma apply_macrons_nil_inv (s : str) : _apply_macrons s = [] → s = [].
Proof.
  unfold _apply_macrons.
  assert (Forall (λ kv : str * str, kv.2 ≠ []) repl) as Hrepl by compute_done.
  revert s. induction Hrepl as [|[src dst] rs Hdst _ IH]; intros s; [done|].
  cbn [fold_left]. intros E%IH. by eapply replace_nil_inv.
Qed.

Lemma kana_to_romaji_nil_iff (text : str) (um ub : bool) :
  kana_to_romaji text um ub = Some []
  ↔ Forall (λ c, c ∈ [SOKUON; 0x30C3; CHOUON]) text.
Proof.
  set (f := λ ch : Z, if bool_decide (is_katakana ch) then ch - 0x60 else ch).
  assert (∀ c, f c = SOKUON ∨ f c = CHOUON ↔ c ∈ [SOKUON; 0x30C3; CHOUON]) as Hf.
  { intros c. rewrite !elem_of_cons, elem_of_nil. unfold f, SOKUON, CHOUON, is_katakana.
    case_bool_decide; lia. }
  unfold kana_to_romaji. case_bool_decide as E.
  { subst text. split; [constructor|done]. }
  unfold basic_romaji. rewrite normalize_total. fold f. cbn [mbind option_bind].
  destruct (run_total ub (f <$> text)) as (final & Hloop & _ & _).
  rewrite Hloop. cbn [mbind option_bind].
  split.
  - intros Hout.
    assert (concat (st_result final) = []) as Hnil.
    { destruct um; injection Hout as Hout; [by apply apply_macrons_nil_inv|done]. }
    apply Forall_lookup. intros p c Hc. apply Hf.
    destruct (decide (f c = SOKUON)) as [?|Hs]; [by left|].
    destruct (decide (f c = CHOUON)) as [?|Hl]; [by right|].
    exfalso.
    assert ((f <$> text) !! p = Some (f c)) as Hp by (by rewrite list_lookup_fmap, Hc).
    destruct (cursor_covers ub (f <$> text) p) as (st & Hv & [Hst|[Hst Hd]]).
    { by eapply lookup_lt_Some. }
    + subst p. by apply (run_not_empty ub (f <$> text) st final (f c)).
    + destruct (digraph_at_true _ _ Hd) as (a & b & rom & Ha & _ & Hrom).
      apply digraph_lookup_inv in Hrom as (? & _ & ? & _).
      by apply (run_not_empty ub (f <$> text) st final a).
  - intros Hall.
    assert (Forall (λ c, c = SOKUON ∨ c = CHOUON) (f <$> text)) as Hall'.
    { apply Forall_fmap. eapply Forall_impl; [exact Hall|]. intros c. apply Hf. }
    rewrite (loop_silent ub (f <$> text)) in Hloop by (done || lia).
    injection Hloop as <-. by destruct um.
Qed.

(** X9. The outcome is the empty string exactly when every character of
    the text is a small tsu (っ or ッ) or the long-vowel mark ー; any other
    character leaves something in the outcome. *)
Theorem romaji_empty_iff (text : str) (um ub : bool) :
  kana_to_romaji text um ub = Some []
  ↔ Forall (λ c, c ∈ [SOKUON; 0x30C3; CHOUON]) text.
Proof. apply kana_to_romaji_nil_iff. Qed.

(** * Properties of the converter and of the lookup *)

(** ** The glosses *)

Lemma truthy_Some (s : option str) :
  truthy s = true → ∃ t, s = Some t ∧ t ≠ [].
Proof. destruct s as [[|c t]|]; try done. intros _. by eexists. Qed.

Lemma english_Some (gloss : XML2SQL.Element) (t : str) :
  XML2SQL.english gloss = Some t → t ≠ [].
Proof.
  unfold XML2SQL.english.
  destruct (bool_decide _ && truthy (XML2SQL.text gloss)) eqn:E; [|done].
  apply andb_true_iff in E as [_ (t' & -> & Hne)%truthy_Some]. by intros [= <-].
Qed.

Lemma gloss_loop_spec (gs : list XML2SQL.Element) (acc : list str) :
  (List.length acc < 3)%nat →
  XML2SQL.gloss_loop gs acc = take 3 (acc ++ omap XML2SQL.english gs).
Proof.
  revert acc. induction gs as [|g gs IH]; intros acc Hacc.
  { cbn. by rewrite app_nil_r, take_ge by lia. }
  cbn [XML2SQL.gloss_loop omap list_omap]. unfold XML2SQL.english at 1.
  case_bool_decide as Hlang.
  - rewrite bool_decide_eq_false_2 by done. cbn [andb]. by apply IH.
  - rewrite (bool_decide_eq_true_2 _ Hlang). cbn [andb].
    destruct (truthy (XML2SQL.text g)) eqn:Ht; [|by apply IH].
    destruct (truthy_Some _ Ht) as (t & -> & _). cbn [default from_option]. unfold id.
    case_bool_decide as Hlen.
    + rewrite (cons_middle t acc (omap XML2SQL.english gs)).
      rewrite (app_assoc acc [t] (omap XML2SQL.english gs)).
      by rewrite take_app_length' by (symmetry; exact Hlen).
    + rewrite length_app in Hlen. cbn in Hlen.
      rewrite IH by (rewrite length_app; cbn; lia).
      by rewrite <- app_assoc.
Qed.

Lemma sense_loop_spec (senses : list XML2SQL.Element) (acc : list str) :
  (List.length acc < 3)%nat →
  XML2SQL.sense_loop senses acc
  = take 3 (acc ++ List.flat_map
                     (λ sense, omap XML2SQL.english (XML2SQL.findall «"gloss"» sense))
                     senses).
Proof.
  revert acc. induction senses as [|s senses IH]; intros acc Hacc.
  { cbn. by rewrite app_nil_r, take_ge by lia. }
  cbn [XML2SQL.sense_loop List.flat_map]. rewrite gloss_loop_spec by done.
  set (here := omap XML2SQL.english (XML2SQL.findall «"gloss"» s)).
  set (rest := List.flat_map _ senses).
  case_bool_decide as Hlen.
  - rewrite app_assoc.
    rewrite length_take in Hlen.
    rewrite (take_app_le (acc ++ here) rest) by lia. done.
  - rewrite length_take in Hlen.
    rewrite (take_ge (acc ++ here)) by lia.
    rewrite IH by lia. by rewrite <- app_assoc.
Qed.

Lemma english_glosses_truthy (entry : XML2SQL.Element) :
  Forall (λ t : str, t ≠ []) (XML2SQL.english_glosses entry).
Proof.
  unfold XML2SQL.english_glosses. apply Forall_forall. intros t Hin.
  apply list_elem_of_In, in_flat_map in Hin as (sense & _ & Hin).
  apply list_elem_of_In, list_elem_of_omap in Hin as (g & _ & Hg).
  by eapply english_Some.
Qed.

Example sample_entry_row :
  XML2SQL.extract_entry int_of_digits sample_entry
  = Some (Row 1582710 (Some «"日本"») (Some «"にほん"»)
              (Some «"Japan"») (Some «"Japanese"») None
              (Some «"n;adj-no"») (Some 1)).
Proof. vm_compute. reflexivity. Qed.

(** ** [extract_entry] *)

(** [extract_entry] with its loops replaced by what they compute. *)
Lemma extract_entry_eq (py_int : str → option Z) (entry : XML2SQL.Element) :
  XML2SQL.extract_entry py_int entry =
  if negb (truthy (XML2SQL.findtext «"ent_seq"» entry)) then None
  else
    match py_int (default [] (XML2SQL.findtext «"ent_seq"» entry)) with
    | None => None
    | Some ent_seq =>
      match XML2SQL.texts (XML2SQL.findall2 «"r_ele"» «"reb"» entry) with
      | [] => None
      | reb0 :: _ =>
        match XML2SQL.english_glosses entry with
        | [] => None
        | _ :: _ =>
          Some (Row ent_seq
                  (Some (match XML2SQL.texts (XML2SQL.findall2 «"k_ele"» «"keb"» entry) with
                         | keb0 :: _ => keb0
                         | [] => reb0
                         end))
                  (Some reb0)
                  (XML2SQL.english_glosses entry !! 0%nat)
                  (XML2SQL.english_glosses entry !! 1%nat)
                  (XML2SQL.english_glosses entry !! 2%nat)
                  (match XML2SQL.pos_loop (XML2SQL.findall «"sense"» entry) with
                   | [] => None
                   | _ :: _ =>
                     Some (XML2SQL.join «";"»
                             (XML2SQL.pos_loop (XML2SQL.findall «"sense"» entry)))
                   end)
                  (Some (match XML2SQL.findall_deep «"ke_pri"» entry,
                               XML2SQL.findall_deep «"re_pri"» entry with
                         | [], [] => 0
                         | _, _ => 1
                         end)))
        end
      end
    end.
Proof.
  unfold XML2SQL.extract_entry.
  destruct (negb (truthy (XML2SQL.findtext «"ent_seq"» entry))); [done|].
  destruct (py_int _) as [ent_seq|]; [|done].
  destruct (XML2SQL.texts (XML2SQL.findall2 «"r_ele"» «"reb"» entry)) as [|reb0 rebs];
    [done|].
  rewrite sense_loop_spec by (cbn; lia). cbn [app].
  fold (XML2SQL.english_glosses entry).
  by destruct (XML2SQL.english_glosses entry) as [|a [|b [|c l]]].
Qed.

Lemma texts_truthy (xs : list XML2SQL.Element) :
  Forall (λ t : str, t ≠ []) (XML2SQL.texts xs).
Proof.
  apply Forall_forall. intros t (x & _ & Hx)%list_elem_of_omap.
  destruct (truthy (XML2SQL.text x)) eqn:E; [|done].
  destruct (truthy_Some _ E) as (t' & Ht & Hne). congruence.
Qed.

Lemma pos_inner_facts (pos_codes : list str) (pos : XML2SQL.Element) :
  ∃ added,
    XML2SQL.pos_inner pos_codes pos = pos_codes ++ added
    ∧ added `sublist_of` XML2SQL.texts [pos]
    ∧ (∀ t, t ∈ added → t ∉ pos_codes)
    ∧ (∀ t, t ∈ XML2SQL.texts [pos] → t ∈ pos_codes ++ added)
    ∧ NoDup added.
Proof.
  unfold XML2SQL.pos_inner, XML2SQL.texts. cbn [omap list_omap].
  destruct (XML2SQL.text pos) as [t|]; cbn [truthy].
  - destruct t as [|c t]; cbn [andb].
    + exists []. rewrite app_nil_r. split; [done|]. split; [constructor|].
      split; [by intros ? ?%elem_of_nil|]. split; [by intros ? ?%elem_of_nil|constructor].
    + case_bool_decide as Hin.
      * exists [c :: t]. split; [done|]. split; [done|].
        split; [by intros ? ->%list_elem_of_singleton|].
        split; [|apply NoDup_singleton].
        intros ? ->%list_elem_of_singleton. apply elem_of_app. right. by left.
      * exists []. rewrite app_nil_r. split; [done|].
        split; [apply sublist_nil_l|]. split; [by intros ? ?%elem_of_nil|].
        split; [|constructor].
        intros ? ->%list_elem_of_singleton.
        first [exact Hin | by apply dec_stable].
  - exists []. rewrite app_nil_r. split; [done|]. split; [constructor|].
    split; [by intros ? ?%elem_of_nil|]. split; [by intros ? ?%elem_of_nil|constructor].
Qed.

Lemma texts_app (xs ys : list XML2SQL.Element) :
  XML2SQL.texts (xs ++ ys) = XML2SQL.texts xs ++ XML2SQL.texts ys.
Proof. apply omap_app. Qed.

Lemma pos_fold_facts (ps : list XML2SQL.Element) (pos_codes : list str) :
  NoDup pos_codes →
  ∃ added,
    fold_left XML2SQL.pos_inner ps pos_codes = pos_codes ++ added
    ∧ added `sublist_of` XML2SQL.texts ps
    ∧ (∀ t, t ∈ XML2SQL.texts ps → t ∈ pos_codes ++ added)
    ∧ NoDup (pos_codes ++ added).
Proof.
  revert pos_codes. induction ps as [|p ps IH]; intros pos_codes Hnd.
  { exists []. rewrite app_nil_r. split; [done|]. split; [constructor|].
    split; [by intros ? ?%elem_of_nil|done]. }
  cbn [fold_left].
  destruct (pos_inner_facts pos_codes p) as (a1 & -> & Hsub1 & Hfresh & Hcov1 & Hnd1).
  destruct (IH (pos_codes ++ a1)) as (a2 & -> & Hsub2 & Hcov2 & Hnd2).
  { apply NoDup_app. split; [done|]. split; [|done]. intros t Ht Ha. by apply (Hfresh t). }
  exists (a1 ++ a2). rewrite app_assoc. split; [done|].
  change (p :: ps) with ([p] ++ ps). rewrite texts_app.
  split; [by apply sublist_app|]. split; [|done].
  intros t [Ht|Ht]%elem_of_app.
  - apply elem_of_app. left. by apply Hcov1.
  - by apply Hcov2.
Qed.

Lemma pos_loop_flat (senses : list XML2SQL.Element) (pos_codes : list str) :
  fold_left (λ pos_codes sense,
               fold_left XML2SQL.pos_inner (XML2SQL.findall «"pos"» sense) pos_codes)
            senses pos_codes
  = fold_left XML2SQL.pos_inner
              (List.flat_map (XML2SQL.findall «"pos"») senses) pos_codes.
Proof.
  revert pos_codes. induction senses as [|s senses IH]; intros pos_codes; [done|].
  cbn [fold_left List.flat_map]. by rewrite IH, fold_left_app.
Qed.

Lemma pos_loop_texts_not_empty (senses : list XML2SQL.Element) (t : str) :
  t ∈ XML2SQL.pos_loop senses → t ≠ [].
Proof.
  unfold XML2SQL.pos_loop. rewrite pos_loop_flat.
  destruct (pos_fold_facts (List.flat_map (XML2SQL.findall «"pos"») senses) [])
    as (added & -> & Hsub & _); [constructor|].
  cbn [app]. intros Ht.
  pose proof (texts_truthy (List.flat_map (XML2SQL.findall «"pos"») senses)) as Hall.
  rewrite Forall_forall in Hall. apply Hall. by eapply elem_of_sublist.
Qed.


(** X10. The three gloss columns of a row hold the first three glosses
    of the entry that are in English and not empty, in document order, and
    NULL where the entry has fewer: the two loops with their early exits
    neither skip nor repeat a gloss. *)
Theorem extract_entry_first_three_glosses
    (py_int : str → option Z) (entry : XML2SQL.Element) (r : row) :
  XML2SQL.extract_entry py_int entry = Some r →
  r_gloss1 r = XML2SQL.english_glosses entry !! 0%nat
  ∧ r_gloss2 r = XML2SQL.english_glosses entry !! 1%nat
  ∧ r_gloss3 r = XML2SQL.english_glosses entry !! 2%nat.
Proof.
  rewrite extract_entry_eq.
  destruct (negb _); [done|]. destruct (py_int _); [|done].
  destruct (XML2SQL.texts _) as [|reb0 rebs]; [done|].
  destruct (XML2SQL.english_glosses entry) eqn:E; [done|].
  by intros [= <-].
Qed.

Lemma extract_entry_first_three_glosses_witness :
  XML2SQL.extract_entry int_of_digits sample_entry
  = Some (Row 1582710 (Some «"日本"») (Some «"にほん"»)
              (Some «"Japan"») (Some «"Japanese"») None
              (Some «"n;adj-no"») (Some 1))
  ∧ Some «"Japanese"» = XML2SQL.english_glosses sample_entry !! 1%nat.
Proof.
  split; [exact sample_entry_row|].
  exact (proj1 (proj2 (extract_entry_first_three_glosses _ _ _ sample_entry_row))).
Defined.

Lemma join_nonempty (sep s : str) (l : list str) :
  s ≠ [] → XML2SQL.join sep (s :: l) ≠ [].
Proof.
  intros Hs. destruct l; cbn [XML2SQL.join]; [done|].
  by intros [? _]%app_eq_nil.
Qed.

(** X11. Every row the converter produces has an expression, a reading
    and a first gloss that are not empty, no empty string in the other
    gloss columns, no third gloss without a second, a part-of-speech column
    that is NULL or not empty, and 0 or 1 in the column [common]. *)
Theorem extract_entry_row_wellformed
    (py_int : str → option Z) (entry : XML2SQL.Element) (r : row) :
  XML2SQL.extract_entry py_int entry = Some r →
  truthy (r_expression r) = true
  ∧ truthy (r_reading r) = true
  ∧ truthy (r_gloss1 r) = true
  ∧ r_gloss2 r ≠ Some [] ∧ r_gloss3 r ≠ Some []
  ∧ (r_gloss2 r = None → r_gloss3 r = None)
  ∧ r_pos r ≠ Some []
  ∧ (r_common r = Some 0 ∨ r_common r = Some 1).
Proof.
  rewrite extract_entry_eq.
  destruct (negb _); [done|]. destruct (py_int _); [|done].
  pose proof (texts_truthy (XML2SQL.findall2 «"r_ele"» «"reb"» entry)) as Hrebs.
  pose proof (texts_truthy (XML2SQL.findall2 «"k_ele"» «"keb"» entry)) as Hkebs.
  pose proof (english_glosses_truthy entry) as Hgl.
  destruct (XML2SQL.texts (XML2SQL.findall2 «"r_ele"» «"reb"» entry))
    as [|reb0 rebs]; [done|].
  apply Forall_cons_1 in Hrebs as [Hreb0 _].
  destruct (XML2SQL.english_glosses entry) as [|g1 gl] eqn:E; [done|].
  apply Forall_cons_1 in Hgl as [Hg1 Hgl].
  intros [= <-]. cbn [r_expression r_reading r_gloss1 r_gloss2 r_gloss3 r_pos r_common].
  split.
  { destruct (XML2SQL.texts (XML2SQL.findall2 «"k_ele"» «"keb"» entry)) as [|keb0 ?].
    - by destruct reb0.
    - apply Forall_cons_1 in Hkebs as [? _]. by destruct keb0. }
  split; [by destruct reb0|]. split; [by destruct g1|].
  split; [|split; [|split; [|split]]].
  - destruct gl as [|g2 gl]; [done|]. apply Forall_cons_1 in Hgl as [? _].
    cbn. congruence.
  - destruct gl as [|g2 [|g3 gl]]; [done..|].
    apply Forall_cons_1 in Hgl as [_ [? _]%Forall_cons_1]. cbn. congruence.
  - by destruct gl as [|g2 gl].
  - destruct (XML2SQL.pos_loop (XML2SQL.findall «"sense"» entry)) as [|p ps] eqn:Hp;
      [done|].
    assert (XML2SQL.join «";"» (p :: ps) ≠ []) as Hne.
    { apply join_nonempty.
      apply (pos_loop_texts_not_empty (XML2SQL.findall «"sense"» entry) p).
      rewrite Hp. by left. }
    congruence.
  - destruct (XML2SQL.findall_deep «"ke_pri"» entry),
      (XML2SQL.findall_deep «"re_pri"» entry); auto.
Qed.

Lemma extract_entry_row_wellformed_witness :
  XML2SQL.extract_entry int_of_digits sample_entry
  = Some (Row 1582710 (Some «"日本"») (Some «"にほん"»)
              (Some «"Japan"») (Some «"Japanese"») None
              (Some «"n;adj-no"») (Some 1))
  ∧ truthy (Some «"にほん"») = true.
Proof.
  split; [exact sample_entry_row|].
  exact (proj1 (proj2 (extract_entry_row_wellformed _ _ _ sample_entry_row))).
Defined.

(** X12. The converter drops an entry in exactly four cases: the ent_seq
    element is missing or has no text, its text is no integer, no reading
    has a text, or no gloss in English has a text. *)
Theorem extract_entry_skips_iff (py_int : str → option Z) (entry : XML2SQL.Element) :
  XML2SQL.extract_entry py_int entry = None
  ↔ truthy (XML2SQL.findtext «"ent_seq"» entry) = false
    ∨ py_int (default [] (XML2SQL.findtext «"ent_seq"» entry)) = None
    ∨ XML2SQL.texts (XML2SQL.findall2 «"r_ele"» «"reb"» entry) = []
    ∨ XML2SQL.english_glosses entry = [].
Proof.
  rewrite extract_entry_eq.
  destruct (truthy (XML2SQL.findtext «"ent_seq"» entry)); cbn [negb];
    [|split; by auto].
  destruct (py_int _); [|split; by auto].
  destruct (XML2SQL.texts _) as [|reb0 rebs]; [split; by auto|].
  destruct (XML2SQL.english_glosses entry); [split; by auto 6|].
  split; [done|]. by intros [?|[?|[?|?]]].
Qed.

(** ** The row read back *)

(** X13. Looking up a row the converter produced gives back what the
    converter read in the entry: the glosses are the first three English
    glosses (the padding with NULL is undone), the reading is the first
    reading and is present, the expression is the first written form or,
    without one, the first reading, and the entry is common exactly when
    the entry has a priority element. *)
Theorem lookup_after_extract
    (py_int : str → option Z) (entry : XML2SQL.Element) (r : row) :
  XML2SQL.extract_entry py_int entry = Some r →
  ∃ d, Dictionary.lookup (Some r) = Some d
       ∧ Dictionary.glosses d = take 3 (XML2SQL.english_glosses entry)
       ∧ Dictionary.reading d
         = head (XML2SQL.texts (XML2SQL.findall2 «"r_ele"» «"reb"» entry))
       ∧ truthy (Dictionary.reading d) = true
       ∧ Dictionary.expression d
         = head (XML2SQL.texts (XML2SQL.findall2 «"k_ele"» «"keb"» entry)
                 ++ XML2SQL.texts (XML2SQL.findall2 «"r_ele"» «"reb"» entry))
       ∧ py_int (default [] (XML2SQL.findtext «"ent_seq"» entry))
         = Some (Dictionary.ent_seq d)
       ∧ (Dictionary.common d = true
          ↔ XML2SQL.findall_deep «"ke_pri"» entry ≠ []
            ∨ XML2SQL.findall_deep «"re_pri"» entry ≠ []).
Proof.
  rewrite extract_entry_eq.
  destruct (negb _); [done|].
  destruct (py_int _) as [n|] eqn:Hn; [|done].
  pose proof (texts_truthy (XML2SQL.findall2 «"r_ele"» «"reb"» entry)) as Hrebs.
  pose proof (english_glosses_truthy entry) as Hgl.
  destruct (XML2SQL.texts (XML2SQL.findall2 «"r_ele"» «"reb"» entry))
    as [|reb0 rebs]; [done|].
  apply Forall_cons_1 in Hrebs as [Hreb0 _].
  destruct (XML2SQL.english_glosses entry) as [|g1 gl] eqn:E; [done|].
  intros [= <-]. eexists. split; [reflexivity|].
  cbn [Dictionary.glosses Dictionary.reading Dictionary.expression
       Dictionary.ent_seq Dictionary.common
       r_expression r_reading r_gloss1 r_gloss2 r_gloss3 r_pos r_common r_ent_seq].
  split; [|split; [done|split; [by destruct reb0|split; [|split; [done|]]]]].
  - assert (∀ t : str, t ≠ [] → truthy (Some t) = true) as Ht by (by intros []).
    destruct gl as [|g2 [|g3 gl]];
      repeat (apply Forall_cons_1 in Hgl as [? Hgl]);
      cbn [lookup list_lookup omap list_omap take];
      rewrite ?Ht by done; done.
  - by destruct (XML2SQL.texts (XML2SQL.findall2 «"k_ele"» «"keb"» entry)).
  - destruct (XML2SQL.findall_deep «"ke_pri"» entry),
      (XML2SQL.findall_deep «"re_pri"» entry); cbn;
      first [ by (split; [done|intros [?|?]; done])
            | by (split; [intros _; first [by left|by right]|done]) ].
Qed.

Lemma lookup_after_extract_witness :
  XML2SQL.extract_entry int_of_digits sample_entry
  = Some (Row 1582710 (Some «"日本"») (Some «"にほん"»)
              (Some «"Japan"») (Some «"Japanese"») None
              (Some «"n;adj-no"») (Some 1))
  ∧ ∃ d, Dictionary.lookup
           (Some (Row 1582710 (Some «"日本"») (Some «"にほん"»)
                      (Some «"Japan"») (Some «"Japanese"») None
                      (Some «"n;adj-no"») (Some 1))) = Some d
         ∧ Dictionary.glosses d = take 3 (XML2SQL.english_glosses sample_entry).
Proof.
  split; [exact sample_entry_row|].
  destruct (lookup_after_extract _ _ _ sample_entry_row) as (d & Hd & Hg & _).
  by exists d.
Defined.

(** ** [convert] *)





(** ** From the dictionary file to the Romaji field *)

Lemma kana_to_romaji_is_Some (text : str) (um ub : bool) :
  ∃ out, kana_to_romaji text um ub = Some out.
Proof.
  unfold kana_to_romaji. case_bool_decide; [by eexists|].
  destruct (basic_romaji_total text ub) as [basic ->]. cbn [mbind option_bind].
  destruct um; by eexists.
Qed.

(** X16. For an entry read back from a row of the converter, the value
    of a Romaji field is the transliteration of the first reading of the
    entry (the fall-back on the expression is never taken); it is computed
    without an error, and it is empty, so that the field is left alone,
    only when that reading is made of small tsu and long-vowel marks. *)
Theorem romaji_field_of_converted_entry
    (py_int : str → option Z) (entry : XML2SQL.Element) (r : row)
    (d : Dictionary.DictEntry) (um ub : bool) :
  XML2SQL.extract_entry py_int entry = Some r →
  Dictionary.lookup (Some r) = Some d →
  ∃ reb0 out,
    head (XML2SQL.texts (XML2SQL.findall2 «"r_ele"» «"reb"» entry)) = Some reb0
    ∧ Addon.romaji_value d um ub = Some out
    ∧ kana_to_romaji reb0 um ub = Some out
    ∧ (out = [] ↔ Forall (λ c, c ∈ [SOKUON; 0x30C3; CHOUON]) reb0).
Proof.
  rewrite extract_entry_eq.
  destruct (negb _); [done|]. destruct (py_int _); [|done].
  pose proof (texts_truthy (XML2SQL.findall2 «"r_ele"» «"reb"» entry)) as Hrebs.
  destruct (XML2SQL.texts (XML2SQL.findall2 «"r_ele"» «"reb"» entry))
    as [|reb0 rebs]; [done|].
  apply Forall_cons_1 in Hrebs as [Hreb0 _].
  destruct (XML2SQL.english_glosses entry); [done|].
  intros [= <-] [= <-].
  destruct (kana_to_romaji_is_Some reb0 um ub) as [out Hout].
  exists reb0, out. split; [done|].
  unfold Addon.romaji_value, Addon.py_or.
  cbn [Dictionary.reading Dictionary.expression r_reading r_expression].
  assert (truthy (Some reb0) = true) as -> by (by destruct reb0).
  split; [done|]. split; [done|].
  rewrite <- (kana_to_romaji_nil_iff reb0 um ub), Hout.
  split; [by intros ->|by intros [= ->]].
Qed.

Lemma romaji_field_of_converted_entry_witness :
  XML2SQL.extract_entry int_of_digits sample_entry
  = Some (Row 1582710 (Some «"日本"») (Some «"にほん"»)
              (Some «"Japan"») (Some «"Japanese"») None
              (Some «"n;adj-no"») (Some 1))
  ∧ ∃ d, Dictionary.lookup
           (Some (Row 1582710 (Some «"日本"») (Some «"にほん"»)
                      (Some «"Japan"») (Some «"Japanese"») None
                      (Some «"n;adj-no"») (Some 1))) = Some d
         ∧ Addon.romaji_value d false true = Some «"nihon"».
Proof.
  split; [exact sample_entry_row|].
  eexists. split; [reflexivity|].
  destruct (romaji_field_of_converted_entry int_of_digits sample_entry _ _
              false true sample_entry_row eq_refl)
    as (reb0 & out & Hreb & Hval & Hkana & _).
  rewrite Hval. vm_compute in Hreb. injection Hreb as <-.
  vm_compute in Hkana. exact (eq_sym Hkana).
Defined.
